(** * Zip tree iterators: a shallow embedding of [zip_tree_iterator.py]

    The Python program walks a "zip tree": nested Python lists (chains) and
    tuples (snarls) whose leaves (seeds) are arbitrary other values.  The four
    generators of the program are embedded below as functions that return the
    finite sequence of yielded values together with the way the generator
    ended. *)

From Stdlib Require Import ZArith Lia String Ascii.
From stdpp Require Import base tactics option list sorting.

Set Warnings "-register-all".
Local Open Scope Z_scope.

(** ** Python values *)

(** The values the program manipulates: integers (distances and indices),
    strings (seed payloads), lists (chains, containment paths) and tuples
    (snarls, chain entries, boundary records). *)
Inductive pyval : Type :=
  | PInt (z : Z)
  | PStr (s : string)
  | PList (items : list pyval)
  | PTuple (items : list pyval).

(** [isinstance(element, ().__class__)] *)
Definition is_tuple (v : pyval) : bool :=
  match v with PTuple _ => true | _ => false end.

(** [isinstance(element, [].__class__)] *)
Definition is_list (v : pyval) : bool :=
  match v with PList _ => true | _ => false end.

(** Anything that is neither a tuple nor a list is treated as a seed. *)
Definition is_seed (v : pyval) : bool := negb (is_tuple v) && negb (is_list v).

(** Nesting depth of a value; it bounds the recursion depth of the walkers. *)
Fixpoint height (v : pyval) : nat :=
  match v with
  | PInt _ | PStr _ => O
  | PList items | PTuple items =>
      S (foldr (fun x acc => Nat.max (height x) acc) O items)
  end.

(** ** Exceptions and fallible expressions *)

Inductive exn : Type := IndexError | TypeError | AssertionError.

Inductive res (A : Type) : Type :=
  | Ok (a : A)
  | Err (x : exn).
Arguments Ok {A} a.
Arguments Err {A} x.

Definition res_bind {A B} (r : res A) (k : A -> res B) : res B :=
  match r with Ok a => k a | Err x => Err x end.

Notation "'let?' x ':=' e 'in' k" := (res_bind e (fun x => k))
  (at level 10, x name, e at level 100, k at level 200).

(** [len(v)] for the sequence [items]. *)
Definition len {A} (items : list A) : Z := Z.of_nat (length items).

(** [seq[i]] with Python's negative indices. *)
Definition index_list {A} (items : list A) (i : Z) : res A :=
  let j := if i <? 0 then i + len items else i in
  if j <? 0 then Err IndexError
  else match items !! Z.to_nat j with
       | Some x => Ok x
       | None => Err IndexError
       end.

Fixpoint string_to_chars (s : string) : list pyval :=
  match s with
  | EmptyString => []
  | String c s' => PStr (String c EmptyString) :: string_to_chars s'
  end.

(** [v[i]]: subscripting works on lists, tuples and strings. *)
Definition getitem (v : pyval) (i : Z) : res pyval :=
  match v with
  | PList items | PTuple items => index_list items i
  | PStr s => index_list (string_to_chars s) i
  | PInt _ => Err TypeError
  end.

(** An operand that has to be an integer (it is added to, or subtracted from,
    an integer).  The values modelled are integers, strings, lists and
    tuples, and among these only an integer adds to an integer; Python's
    other numbers (a float adds to an integer) are not modelled. *)
Definition as_int (v : pyval) : res Z :=
  match v with PInt z => Ok z | _ => Err TypeError end.

(** [range(start, stop, step)] for a non-zero literal [step]. *)
Definition py_range (start stop step : Z) : list Z :=
  let n := if 0 <? step then (stop - start + step - 1) / step
           else (start - stop - step - 1) / (- step) in
  map (fun k => start + Z.of_nat k * step) (seq 0 (Z.to_nat n)).

(** ** Generators *)

(** How a generator stops: it returns, an exception escapes, or (in the
    embedding only) the recursion budget is used up. *)
Inductive ending : Type :=
  | Returned
  | Raised (x : exn)
  | OutOfFuel.

(** A generator that has been run to its end: the yielded values in order and
    the ending. *)
Definition gen (A : Type) : Type := (list A * ending)%type.

Definition yields {A} (g : gen A) : list A := fst g.
Definition ended {A} (g : gen A) : ending := snd g.

(** A piece of a generator body: the values it yields, then either the value
    it computes (control continues) or the ending of the whole generator. *)
Inductive flow (S : Type) : Type :=
  | Next (s : S)
  | Exit (e : ending).
Arguments Next {S} s.
Arguments Exit {S} e.

Definition body (A S : Type) : Type := (list A * flow S)%type.

Definition ret {A S} (s : S) : body A S := ([], Next s).
Definition yield {A} (a : A) : body A unit := ([a], Next tt).
Definition raise {A S} (x : exn) : body A S := ([], Exit (Raised x)).
(** The [return] statement of a generator. *)
Definition return_ {A S} : body A S := ([], Exit Returned).

Definition lift {A S} (r : res S) : body A S :=
  match r with Ok s => ret s | Err x => raise x end.

Definition bind {A S T} (m : body A S) (k : S -> body A T) : body A T :=
  match m with
  | (ys, Next s) => let '(zs, f) := k s in (ys ++ zs, f)
  | (ys, Exit e) => (ys, Exit e)
  end.

Notation "'let*' x ':=' e 'in' k" := (bind e (fun x => k))
  (at level 10, x name, e at level 100, k at level 200).
Notation "e '>>' k" := (bind e (fun _ => k))
  (at level 100, k at level 200, right associativity).

(** [for i in idxs: s = step i s], threading the loop-carried state [s]. *)
Fixpoint for_in {I A S} (idxs : list I) (step : I -> S -> body A S) (s : S)
  : body A S :=
  match idxs with
  | [] => ret s
  | i :: idxs' => let* s' := step i s in for_in idxs' step s'
  end.

(** [for x in g: ...] over another generator: the loop body runs on each
    yielded value in turn; an abnormal ending of [g] escapes afterwards. *)
Definition for_gen {X A S} (g : gen X) (step : X -> S -> body A S) (s : S)
  : body A S :=
  let* s' := for_in (yields g) step s in
  match ended g with
  | Returned => ret s'
  | e => ([], Exit e)
  end.

(** Falling off the end of the generator body. *)
Definition run {A S} (m : body A S) : gen A :=
  match m with
  | (ys, Next _) => (ys, Returned)
  | (ys, Exit e) => (ys, e)
  end.

(** The guarded [yield] that every walker uses:
    [if d <= max_distance: yield seed, d]. *)
Definition yield_within (max_distance : Z) (seed : pyval) (d : Z)
  : body (pyval * Z) unit :=
  if d <=? max_distance then yield (seed, d) else ret tt.

(** ** The right-to-left walker *)

(** Body of the loop over the chain entries of a snarl. *)
Definition rtl_snarl_step (walk : pyval -> Z -> gen (pyval * Z))
  (element : pyval) (max_distance : Z) (i : Z) (_ : unit)
  : body (pyval * Z) unit :=
  let* chain := lift (let? e := getitem element i in getitem e (-1)) in
  for_gen (walk chain max_distance) (fun '(seed, nested_distance) _ =>
    let* d := lift (let? b := getitem element (-1) in
                    let? x := getitem b (i + 1) in
                    let? x := as_int x in
                    Ok (nested_distance + x)) in
    yield_within max_distance seed d) tt.

(** Body of the loop over the sub-elements of a chain; the loop carries
    [distance_from_right_chain_end]. *)
Definition rtl_chain_step (walk : pyval -> Z -> gen (pyval * Z))
  (element : pyval) (max_distance : Z) (i : Z)
  (distance_from_right_chain_end : Z) : body (pyval * Z) Z :=
  let* nested_element := lift (getitem element i) in
  for_gen (walk nested_element max_distance) (fun '(seed, nested_distance) _ =>
    let d := nested_distance + distance_from_right_chain_end in
    yield_within max_distance seed d) tt >>
  let* distance_from_right_chain_end :=
    (if is_tuple nested_element then
       lift (let? b := getitem nested_element (-1) in
             let? x := getitem b 0 in
             let? x := as_int x in
             Ok (distance_from_right_chain_end + x))
     else ret distance_from_right_chain_end) in
  let* distance_from_right_chain_end :=
    (if 0 <? i then
       lift (let? x := getitem element (i - 1) in
             let? x := as_int x in
             Ok (distance_from_right_chain_end + x))
     else ret distance_from_right_chain_end) in
  if max_distance <? distance_from_right_chain_end then return_
  else ret distance_from_right_chain_end.

Fixpoint rtl (fuel : nat) (element : pyval) (max_distance : Z)
  : gen (pyval * Z) :=
  match fuel with
  | O => ([], OutOfFuel)
  | S fuel' =>
    match element with
    | PTuple items =>
        run (for_in (py_range (len items - 2) (-1) (-1))
               (rtl_snarl_step (rtl fuel') element max_distance) tt)
    | PList items =>
        run (for_in (py_range (len items - 1) (-1) (-2))
               (rtl_chain_step (rtl fuel') element max_distance) 0)
    | _ => ([(element, 0)], Returned)
    end
  end.

Definition zip_element_right_to_left_iterator (element : pyval)
  (max_distance : Z) : gen (pyval * Z) :=
  rtl (S (height element)) element max_distance.

(** ** The left-to-right enumerator *)

(** The loop over the seeds of a sub-element: each containment path is
    extended by the enclosing [element] and the index [i]. *)
Definition ltr_extend (element : pyval) (i : Z)
  (nested : gen (pyval * list pyval)) : body (pyval * list pyval) unit :=
  for_gen nested (fun '(seed, contained_elements) _ =>
    let c := contained_elements ++ [element; PInt i] in
    yield (seed, c)) tt.

Definition ltr_snarl_step (enum : pyval -> gen (pyval * list pyval))
  (element : pyval) (i : Z) (_ : unit) : body (pyval * list pyval) unit :=
  let* chain := lift (let? e := getitem element i in getitem e (-1)) in
  ltr_extend element i (enum chain).

Definition ltr_chain_step (enum : pyval -> gen (pyval * list pyval))
  (element : pyval) (i : Z) (_ : unit) : body (pyval * list pyval) unit :=
  let* nested_element := lift (getitem element i) in
  ltr_extend element i (enum nested_element).

Fixpoint ltr (fuel : nat) (element : pyval) : gen (pyval * list pyval) :=
  match fuel with
  | O => ([], OutOfFuel)
  | S fuel' =>
    match element with
    | PTuple items =>
        run (for_in (py_range 0 (len items - 1) 1)
               (ltr_snarl_step (ltr fuel') element) tt)
    | PList items =>
        run (for_in (py_range 0 (len items) 2)
               (ltr_chain_step (ltr fuel') element) tt)
    | _ => ([(element, [])], Returned)
    end
  end.

Definition zip_element_left_to_right_iterator (element : pyval)
  : gen (pyval * list pyval) :=
  ltr (S (height element)) element.

(** ** The outward reachability walker *)

(** Body of the loop over the chains that precede chain [j] in a snarl. *)
Definition reach_snarl_step (max_distance : Z) (element : pyval) (j : Z)
  (distance_from_right : Z) (k : Z) (_ : unit) : body (pyval * Z) unit :=
  let* chain := lift (let? e := getitem element k in getitem e (-1)) in
  for_gen (zip_element_right_to_left_iterator chain max_distance)
    (fun '(seed, nested_distance) _ =>
      let* d := lift (let? e := getitem element j in
                      let? x := getitem e (k + 1) in
                      let? x := as_int x in
                      Ok (nested_distance + x + distance_from_right)) in
      yield_within max_distance seed d) tt.

(** Body of the loop over the sub-elements that precede the seed's one in a
    chain; the loop carries [distance_from_right]. *)
Definition reach_chain_step (max_distance : Z) (element : pyval) (k : Z)
  (distance_from_right : Z) : body (pyval * Z) Z :=
  let* distance_from_right :=
    lift (let? x := getitem element (k + 1) in
          let? x := as_int x in
          Ok (distance_from_right + x)) in
  (if max_distance <? distance_from_right then return_ else ret tt) >>
  let* nested := lift (getitem element k) in
  for_gen (zip_element_right_to_left_iterator nested max_distance)
    (fun '(seed, nested_distance) _ =>
      let d := nested_distance + distance_from_right in
      yield_within max_distance seed d) tt >>
  let* distance_from_right :=
    (if is_tuple nested then
       lift (let? b := getitem nested (-1) in
             let? x := getitem b 0 in
             let? x := as_int x in
             Ok (distance_from_right + x))
     else ret distance_from_right) in
  if max_distance <? distance_from_right then return_
  else ret distance_from_right.

(** One round of the outer loop: the container [element] and the index [j] of
    the seed's sub-element inside it. *)
Definition reach_level (max_distance : Z) (element j : pyval)
  (distance_from_right : Z) : body (pyval * Z) Z :=
  if is_tuple element then
    let* j := lift (as_int j) in
    for_in (py_range (j - 1) (-1) (-1))
      (reach_snarl_step max_distance element j distance_from_right) tt >>
    let* distance_from_right :=
      lift (let? e := getitem element j in
            let? x := getitem e 0 in
            let? x := as_int x in
            Ok (distance_from_right + x)) in
    if max_distance <? distance_from_right then return_
    else ret distance_from_right
  else
    (if is_list element then ret tt else raise AssertionError) >>
    let* j := lift (as_int j) in
    for_in (py_range (j - 2) (-1) (-2))
      (reach_chain_step max_distance element) distance_from_right.

(** Body of the outer loop over the containment path. *)
Definition reach_step (contained_elements : list pyval) (max_distance : Z)
  (i : Z) (distance_from_right : Z) : body (pyval * Z) Z :=
  let* element := lift (index_list contained_elements i) in
  let* j := lift (index_list contained_elements (i + 1)) in
  reach_level max_distance element j distance_from_right.

(** The outer loop, started with an accumulated distance. *)
Definition reach_from (contained_elements : list pyval) (max_distance : Z)
  (distance_from_right : Z) : body (pyval * Z) Z :=
  for_in (py_range 0 (len contained_elements) 2)
    (reach_step contained_elements max_distance) distance_from_right.

Definition zip_reachable_iterator (contained_elements : list pyval)
  (max_distance : Z) : gen (pyval * Z) :=
  run (reach_from contained_elements max_distance 0).

(** ** The all-pairs enumerator *)

Definition zip_element_pairs_iterator (zip_tree : pyval) (max_distance : Z)
  : gen (pyval * pyval * Z) :=
  run (for_gen (zip_element_left_to_right_iterator zip_tree)
    (fun '(element, contained_elements) _ =>
      for_gen (zip_reachable_iterator contained_elements max_distance)
        (fun '(element2, distance) _ =>
           yield (element, element2, distance)) tt) tt).

(** ** Well-formed zip trees *)

(** The tagged view of a zip tree.  A chain is its first element followed by
    (distance, element) pairs; a snarl is its chain entries, each a tuple of
    distances and a chain, followed by the boundary-distance record. *)
Inductive ztree : Type :=
  | Leaf (seed : pyval)
  | Chain (first : ztree) (rest : list (Z * ztree))
  | Snarl (entries : list (list Z * ztree)) (boundary : list Z).

Definition is_leaf (t : ztree) : bool :=
  match t with Leaf _ => true | _ => false end.
Definition is_chain (t : ztree) : bool :=
  match t with Chain _ _ => true | _ => false end.

(** The Python value that represents a tree. *)
Fixpoint encode (t : ztree) : pyval :=
  match t with
  | Leaf seed => seed
  | Chain first rest =>
      PList (encode first ::
             flat_map (fun gc => [PInt gc.1; encode gc.2]) rest)
  | Snarl entries boundary =>
      PTuple (map (fun e => PTuple (map PInt e.1 ++ [encode e.2])) entries
              ++ [PTuple (map PInt boundary)])
  end.

Definition nonneg (ds : list Z) : bool := forallb (fun d => 0 <=? d) ds.

(** Well-formedness, following the grammar in the program's docstring: the
    elements of a chain are seeds or snarls, the chain entry [i] of a snarl
    holds [i+1] distances and a chain, the boundary record of a snarl with [N]
    chains holds [N+1] distances, and no distance is negative. *)
Fixpoint ok (t : ztree) : bool :=
  match t with
  | Leaf seed => is_seed seed
  | Chain first rest =>
      negb (is_chain first) && ok first &&
      forallb (fun gc => (0 <=? gc.1) && negb (is_chain gc.2) && ok gc.2) rest
  | Snarl entries boundary =>
      (length boundary =? S (length entries))%nat && nonneg boundary &&
      forallb (fun b => b)
        (imap (fun i e => (length e.1 =? S i)%nat && nonneg e.1) entries) &&
      forallb (fun e => is_chain e.2 && ok e.2) entries
  end.

(** ** What the encoded distances mean *)

Definition shift (D : Z) (l : list (pyval * Z)) : list (pyval * Z) :=
  map (fun sd => (sd.1, sd.2 + D)) l.

Definition within (max_distance : Z) (l : list (pyval * Z))
  : list (pyval * Z) :=
  filter (fun sd => sd.2 <= max_distance) l.

(** The seeds of a tree from left to right. *)
Fixpoint leaves (t : ztree) : list pyval :=
  match t with
  | Leaf seed => [seed]
  | Chain first rest => leaves first ++ concat (map (fun gc => leaves gc.2) rest)
  | Snarl entries _ => concat (map (fun e => leaves e.2) entries)
  end.

(** The minimum distance across an element of a chain: entry 0 of the
    boundary record for a snarl, nothing for a seed. *)
Definition cross (t : ztree) : Z :=
  match t with
  | Snarl _ (c :: _) => c
  | _ => 0
  end.

(** A sub-element of a chain, summarised: the distance that precedes it in
    the chain (0 for the first one), the distance across it, and what is
    known about its seeds. *)
Definition part (A : Type) : Type := (Z * Z * A)%type.

(** The length of a run of sub-elements: from the left side of the gap before
    the first to the right side of the last. *)
Definition span {A} (ps : list (part A)) : Z :=
  foldr (fun p acc => p.1.1 + p.1.2 + acc) 0 ps.

(** Seeds of a chain with their distance to the right end of the chain, from
    right to left: a seed of a sub-element is as far from the sub-element's
    right side as the sub-element says, plus the length of everything that
    follows the sub-element. *)
Fixpoint chain_right (ps : list (part (list (pyval * Z))))
  : list (pyval * Z) :=
  match ps with
  | [] => []
  | p :: ps' => chain_right ps' ++ shift (span ps') p.2
  end.

(** Seeds of a snarl with their distance to the right boundary, from right to
    left: entry [i+1] of the boundary record is the distance from the right
    boundary to the right side of chain [i]. *)
Definition snarl_right (boundary : list Z) (rs : list (list (pyval * Z)))
  : list (pyval * Z) :=
  concat (reverse (imap (fun i r => shift (boundary !!! S i) r) rs)).

(** Every seed of a tree with its distance to the right end of the tree, from
    right to left. *)
Fixpoint to_right (t : ztree) : list (pyval * Z) :=
  match t with
  | Leaf seed => [(seed, 0)]
  | Chain first rest =>
      chain_right ((0, cross first, to_right first) ::
                   map (fun gc => (gc.1, cross gc.2, to_right gc.2)) rest)
  | Snarl entries boundary =>
      snarl_right boundary (map (fun e => to_right e.2) entries)
  end.

(** What is known about a seed inside a tree: the seed, its distance to the
    left end of the tree, and the seeds of the tree that precede it, nearest
    first, each with its distance to the seed. *)
Definition origin : Type := (pyval * Z * list (pyval * Z))%type.

(** Moving one level out: the seed's container starts [to_left] after the
    left end of the enclosing tree, and [outer] lists the seeds that precede
    the container, with their distance to the container's left side. *)
Definition widen (to_left : Z) (outer : list (pyval * Z)) (o : origin)
  : origin :=
  (o.1.1, o.1.2 + to_left, o.2 ++ shift o.1.2 outer).

(** Forgetting what is known about the seeds' origins. *)
Definition summary (p : part (list (pyval * Z) * list origin))
  : part (list (pyval * Z)) :=
  (p.1, p.2.1).

(** In a chain, the sub-element [i] starts after the sub-elements before it
    and the gap in front of it. *)
Definition chain_before (ps : list (part (list (pyval * Z) * list origin)))
  : list origin :=
  concat (imap (fun i p =>
    map (widen (span (map summary (take i ps)) + p.1.1)
               (shift p.1.1 (chain_right (map summary (take i ps)))))
        p.2.2) ps).

(** In a snarl, chain [i] starts [ds[0]] after the left boundary, and its left
    side is [ds[k+1]] away from the right side of the chain [k] before it. *)
Definition snarl_before
  (es : list (list Z * (list (pyval * Z) * list origin))) : list origin :=
  concat (imap (fun i e =>
    map (widen (e.1 !!! O)
               (snarl_right e.1 (map (fun e' => e'.2.1) (take i es))))
        e.2.2) es).

Fixpoint before (t : ztree) : list origin :=
  match t with
  | Leaf seed => [(seed, 0, [])]
  | Chain first rest =>
      chain_before ((0, cross first, (to_right first, before first)) ::
                    map (fun gc => (gc.1, cross gc.2,
                                    (to_right gc.2, before gc.2))) rest)
  | Snarl entries _ =>
      snarl_before (map (fun e => (e.1, (to_right e.2, before e.2))) entries)
  end.

(** The distance between every two seeds of a tree, as the encoded distances
    give it: the later seed, the earlier seed, the distance. *)
Definition true_distances (t : ztree) : list (pyval * pyval * Z) :=
  flat_map (fun o => map (fun sd => (o.1.1, sd.1, sd.2)) o.2) (before t).

(** All pairs (later, earlier) of positions of a list, the later position
    running left to right, the earlier one from the nearest backwards. *)
Definition ordered_pairs {A} (l : list A) : list (A * A) :=
  concat (imap (fun k x => map (fun y => (x, y)) (reverse (take k l))) l).

(** Moving one level out: the containment path of every seed found in a
    sub-element gets the container and the index of the sub-element in it
    appended. *)
Definition extend (container : pyval) (i : Z)
  (found : list (pyval * list pyval)) : list (pyval * list pyval) :=
  map (fun sp => (sp.1, sp.2 ++ [container; PInt i])) found.

(** The seeds of a tree from left to right, each with its containment path:
    in a chain the sub-element [i] sits at index [2 i] of the list, in a snarl
    the chain [i] is in the chain entry [i]. *)
Fixpoint enumerated (t : ztree) : list (pyval * list pyval) :=
  match t with
  | Leaf seed => [(seed, [])]
  | Chain first rest =>
      concat (imap (fun i found => extend (encode t) (2 * Z.of_nat i) found)
                (enumerated first :: map (fun gc => enumerated gc.2) rest))
  | Snarl entries _ =>
      concat (imap (fun i found => extend (encode t) (Z.of_nat i) found)
                (map (fun e => enumerated e.2) entries))
  end.

(** [contains root path seed]: following [path] from its outer end, starting
    at [root], leads to [seed].  The path lists a container and an index in
    turn, the innermost container first; the index in a list is the position
    of the sub-element, the index in a tuple is the number of the chain
    entry, whose last item is the sub-element. *)
Inductive contains : pyval -> list pyval -> pyval -> Prop :=
  | contains_seed seed :
      is_seed seed = true -> contains seed [] seed
  | contains_chain items i sub path seed :
      0 <= i -> Z.even i = true ->
      getitem (PList items) i = Ok sub ->
      contains sub path seed ->
      contains (PList items) (path ++ [PList items; PInt i]) seed
  | contains_snarl items i entry sub path seed :
      0 <= i < len items - 1 ->
      getitem (PTuple items) i = Ok entry ->
      getitem entry (-1) = Ok sub ->
      contains sub path seed ->
      contains (PTuple items) (path ++ [PTuple items; PInt i]) seed.

(** ** The example tree of the program *)

Local Open Scope string_scope.

Definition zip_tree : pyval :=
  PList [PStr "a"; PInt 5;
         PTuple [PTuple [PInt 1; PList [PStr "b"]]; PTuple [PInt 1; PInt 0]];
         PInt 10; PStr "c"; PInt 4; PStr "d"; PInt 3;
         PTuple [PTuple [PInt 2;
                         PList [PStr "e"; PInt 4;
                                PTuple [PTuple [PInt 2; PList [PStr "f"]];
                                        PTuple [PInt 3; PInt 0]];
                                PInt 6; PStr "g"]];
                 PTuple [PInt 4; PInt 2; PList [PStr "h"]];
                 PTuple [PInt 1; PInt 2; PInt 1]];
         PInt 7; PStr "i"; PInt 2; PStr "j"].

Definition example : ztree :=
  Chain (Leaf (PStr "a"))
    [(5, Snarl [([1], Chain (Leaf (PStr "b")) [])] [1; 0]);
     (10, Leaf (PStr "c")); (4, Leaf (PStr "d"));
     (3, Snarl [([2], Chain (Leaf (PStr "e"))
                        [(4, Snarl [([2], Chain (Leaf (PStr "f")) [])] [3; 0]);
                         (6, Leaf (PStr "g"))]);
                ([4; 2], Chain (Leaf (PStr "h")) [])] [1; 2; 1]);
     (7, Leaf (PStr "i")); (2, Leaf (PStr "j"))].

Local Close Scope string_scope.

(** ** Notions used to state the properties *)

(** A property of everything a body yields. *)
Definition all_yields {A S} (P : A -> Prop) (b : body A S) : Prop :=
  Forall P b.1.

(** A body that does not stop for lack of recursion budget. *)
Definition fuelled {A S} (b : body A S) : Prop :=
  match b.2 with Exit OutOfFuel => False | _ => True end.

(** A snarl in which the distance from chain 1 to the left boundary (4) is
    not the distance across the snarl (1). *)
Definition two_chain_snarl : pyval :=
  PTuple [PTuple [PInt 2; PList [PStr "x"]];
          PTuple [PInt 4; PInt 2; PList [PStr "h"]];
          PTuple [PInt 1; PInt 2; PInt 1]].

(** The items of the list that encodes a chain. *)
Definition chain_items (first : ztree) (rest : list (Z * ztree)) : list pyval :=
  encode first :: flat_map (fun gc => [PInt gc.1; encode gc.2]) rest.

(** The tuple that encodes a chain entry of a snarl. *)
Definition entry_item (e : list Z * ztree) : pyval :=
  PTuple (map PInt e.1 ++ [encode e.2]).

(** The sub-elements of a chain, from left to right. *)
Definition children (first : ztree) (rest : list (Z * ztree)) : list ztree :=
  first :: map snd rest.

(** The sub-elements of a chain, summarised for [chain_right] and for
    [chain_before]; no gap precedes the first one. *)
Definition right_parts (first : ztree) (rest : list (Z * ztree))
  : list (part (list (pyval * Z))) :=
  (0, cross first, to_right first) ::
  map (fun gc => (gc.1, cross gc.2, to_right gc.2)) rest.

Definition before_parts (first : ztree) (rest : list (Z * ztree))
  : list (part (list (pyval * Z) * list origin)) :=
  (0, cross first, (to_right first, before first)) ::
  map (fun gc => (gc.1, cross gc.2, (to_right gc.2, before gc.2))) rest.

(** What the enumerator finds in each sub-element of a chain. *)
Definition chain_found (first : ztree) (rest : list (Z * ztree))
  : list (list (pyval * list pyval)) :=
  enumerated first :: map (fun gc => enumerated gc.2) rest.

(** Every distance of [l] is at least [D]. *)
Definition far (D : Z) (l : list (pyval * Z)) : Prop :=
  Forall (fun sd => D <= sd.2) l.

(** The distances of [l] never decrease along the list. *)
Definition nondecreasing (l : list (pyval * Z)) : Prop :=
  StronglySorted (fun a b => a.2 <= b.2) l.

(** What the right-to-left walker yields for a tree: a lone seed comes out
    whatever the bound is, everything else is filtered by the bound. *)
Definition rtl_yields (max_distance : Z) (t : ztree) : list (pyval * Z) :=
  match t with
  | Leaf seed => [(seed, 0)]
  | _ => within max_distance (to_right t)
  end.

(** The result of a round of the outward walker that has walked [found] and
    has moved [L] further out from an accumulated distance [D]: the round
    stops the walk only when the accumulated distance has passed the
    bound. *)
Definition round (m D L : Z) (found : list (pyval * Z))
  (b : body (pyval * Z) Z) : Prop :=
  b.1 = within m (shift D found) /\
  (b.2 = Next (D + L) \/ (b.2 = Exit Returned /\ m < D + L)).

(** The link between a seed as the enumerator yields it and what is known
    about its origin: the outward walker, started on the seed's containment
    path, yields the preceding seeds that are within the bound, nearest
    container first, and ends up as far out as the left end of the tree. *)
Definition walks_out (m : Z) (sp : pyval * list pyval) (o : origin) : Prop :=
  sp.1 = o.1.1 /\
  (exists k, length sp.2 = (2 * k)%nat) /\
  0 <= o.1.2 /\
  forall D, 0 <= D -> round m D o.1.2 o.2 (reach_from sp.2 m D).

(** The triples for one seed: the seed, an earlier seed within the bound, the
    distance. *)
Definition pairs_of (m : Z) (o : origin) : list (pyval * pyval * Z) :=
  map (fun sd => (o.1.1, sd.1, sd.2)) (within m o.2).

(** Each element of a list with the elements before it, nearest first. *)
Definition prefixes {A} (l : list A) : list (A * list A) :=
  imap (fun k x => (x, reverse (take k l))) l.

(** The seed of an origin with the seeds it is measured against. *)
Definition shape (o : origin) : pyval * list pyval := (o.1.1, map fst o.2).

(** A tree whose leaves are seeds; nothing is asked of its distances or of
    the way chains and snarls nest. *)
Fixpoint seeded (t : ztree) : bool :=
  match t with
  | Leaf seed => is_seed seed
  | Chain first rest => seeded first && forallb (fun gc => seeded gc.2) rest
  | Snarl entries _ => forallb (fun e => seeded e.2) entries
  end.

(** A containment path as the outward walker reads it: a container (a list
    or a tuple) and an integer index, in turn. *)
Fixpoint well_paired (path : list pyval) : bool :=
  match path with
  | [] => true
  | container :: PInt _ :: path' =>
      negb (is_seed container) && well_paired path'
  | _ => false
  end.

(** Induction on trees, with the property known for every sub-element. *)
Section ZtreeInd.
Variable P : ztree -> Prop.
Hypothesis HLeaf : forall seed, P (Leaf seed).
Hypothesis HChain : forall first rest,
  P first -> Forall (fun gc => P gc.2) rest -> P (Chain first rest).
Hypothesis HSnarl : forall entries boundary,
  Forall (fun e => P e.2) entries -> P (Snarl entries boundary).

Fixpoint ztree_ind' (t : ztree) : P t :=
  match t with
  | Leaf seed => HLeaf seed
  | Chain first rest =>
      HChain first rest (ztree_ind' first)
        ((fix go (l : list (Z * ztree)) : Forall (fun gc => P gc.2) l :=
            match l with
            | [] => List.Forall_nil _
            | (g, c) :: l' =>
                List.Forall_cons (fun gc => P gc.2) (g, c) l' (ztree_ind' c) (go l')
            end) rest)
  | Snarl entries boundary =>
      HSnarl entries boundary
        ((fix go (l : list (list Z * ztree)) : Forall (fun e => P e.2) l :=
            match l with
            | [] => List.Forall_nil _
            | (ds, c) :: l' =>
                List.Forall_cons (fun e => P e.2) (ds, c) l' (ztree_ind' c) (go l')
            end) entries)
  end.
End ZtreeInd.

(** * Properties *)

(** The tagged view of the program's example is the program's example. *)
Example encode_example : encode example = zip_tree.
Proof. reflexivity. Qed.

(** ** Ranges *)

Lemma py_range_down1_nil (start : Z) :
  start < 0 -> py_range start (-1) (-1) = [].
Proof.
  intros H. unfold py_range.
  change (0 <? -1) with false. change (- -1) with 1. cbv iota.
  replace (Z.to_nat ((start - -1 - -1 - 1) / 1)) with O; [reflexivity|].
  rewrite Z.div_1_r. lia.
Qed.

Lemma py_range_down1_cons (start : Z) :
  0 <= start ->
  py_range start (-1) (-1) = start :: py_range (start - 1) (-1) (-1).
Proof.
  intros H. unfold py_range.
  change (0 <? -1) with false. change (- -1) with 1. cbv iota.
  rewrite !Z.div_1_r.
  replace (Z.to_nat (start - -1 - -1 - 1)) with (S (Z.to_nat start)) by lia.
  replace (Z.to_nat (start - 1 - -1 - -1 - 1)) with (Z.to_nat start) by lia.
  simpl. f_equal; [lia|].
  rewrite <- seq_shift, map_map. apply map_ext. intros k. lia.
Qed.

Lemma py_range_down2_nil (start : Z) :
  start < 0 -> py_range start (-1) (-2) = [].
Proof.
  intros H. unfold py_range.
  change (0 <? -2) with false. change (- -2) with 2. cbv iota.
  replace (Z.to_nat ((start - -1 - -2 - 1) / 2)) with O; [reflexivity|].
  assert ((start - -1 - -2 - 1) / 2 < 1); [|lia].
  apply Z.div_lt_upper_bound; lia.
Qed.

Lemma py_range_down2_cons (start : Z) :
  0 <= start ->
  py_range start (-1) (-2) = start :: py_range (start - 2) (-1) (-2).
Proof.
  intros H. unfold py_range.
  change (0 <? -2) with false. change (- -2) with 2. cbv iota.
  replace (start - -1 - -2 - 1) with (1 * 2 + (start - 2 - -1 - -2 - 1)) by lia.
  rewrite Z.div_add_l by lia.
  assert (0 <= (start - 2 - -1 - -2 - 1) / 2) by (apply Z.div_pos; lia).
  replace (Z.to_nat (1 + (start - 2 - -1 - -2 - 1) / 2))
    with (S (Z.to_nat ((start - 2 - -1 - -2 - 1) / 2))) by lia.
  simpl. f_equal; [lia|].
  rewrite <- seq_shift, map_map. apply map_ext. intros k. lia.
Qed.

Lemma py_range_up_nil (start stop step : Z) :
  0 < step -> stop <= start -> py_range start stop step = [].
Proof.
  intros Hs H. unfold py_range.
  destruct (0 <? step) eqn:E; [|lia].
  replace (Z.to_nat ((stop - start + step - 1) / step)) with O; [reflexivity|].
  assert ((stop - start + step - 1) / step < 1); [|lia].
  apply Z.div_lt_upper_bound; lia.
Qed.

Lemma py_range_up_cons (start stop step : Z) :
  0 < step -> start < stop ->
  py_range start stop step = start :: py_range (start + step) stop step.
Proof.
  intros Hs H. unfold py_range.
  destruct (0 <? step) eqn:E; [|lia].
  replace (stop - start + step - 1)
    with (1 * step + (stop - (start + step) + step - 1)) by lia.
  rewrite Z.div_add_l by lia.
  assert (0 <= (stop - (start + step) + step - 1) / step)
    by (apply Z.div_pos; lia).
  replace (Z.to_nat (1 + (stop - (start + step) + step - 1) / step))
    with (S (Z.to_nat ((stop - (start + step) + step - 1) / step))) by lia.
  simpl. f_equal; [lia|].
  rewrite <- seq_shift, map_map. apply map_ext. intros k. lia.
Qed.

Lemma py_range_up_snoc (stop step : Z) (k : nat) :
  0 < step ->
  py_range 0 (Z.of_nat k * step) step ++ [Z.of_nat k * step]
  = py_range 0 (Z.of_nat (S k) * step) step.
Proof.
  intros Hs. unfold py_range.
  destruct (0 <? step) eqn:E; [|lia].
  assert (Hn : forall n : nat,
    Z.to_nat ((Z.of_nat n * step - 0 + step - 1) / step) = n).
  { intros n.
    replace (Z.of_nat n * step - 0 + step - 1)
      with (Z.of_nat n * step + (step - 1)) by lia.
    rewrite Z.div_add_l by lia. rewrite Z.div_small by lia. lia. }
  rewrite !Hn. rewrite seq_S, map_app. simpl.
  repeat f_equal; lia.
Qed.

(** ** Generator bodies *)

Section Bodies.
Context {A : Type}.

Lemma bind_next {S T} (ys : list A) (s : S) (k : S -> body A T) :
  bind (ys, Next s) k = (ys ++ (k s).1, (k s).2).
Proof. unfold bind. destruct (k s). reflexivity. Qed.

Lemma bind_exit {S T} (ys : list A) (e : ending) (k : S -> body A T) :
  bind (ys, Exit e) k = (ys, Exit e).
Proof. reflexivity. Qed.

Lemma bind_ret {S T} (s : S) (k : S -> body A T) : bind (ret s) k = k s.
Proof. unfold ret. rewrite bind_next. destruct (k s). reflexivity. Qed.

Lemma bind_ext {S T} (m : body A S) (k k' : S -> body A T) :
  (forall s, k s = k' s) -> bind m k = bind m k'.
Proof.
  intros H. destruct m as [ys [s|e]]; [|reflexivity].
  unfold bind. rewrite H. reflexivity.
Qed.

Lemma bind_assoc {S T U} (m : body A S) (k : S -> body A T)
  (h : T -> body A U) :
  bind (bind m k) h = bind m (fun s => bind (k s) h).
Proof.
  destruct m as [ys [s|e]]; [|reflexivity].
  unfold bind. destruct (k s) as [zs [t|e]]; [|reflexivity].
  destruct (h t) as [ws f]. rewrite app_assoc. reflexivity.
Qed.

Lemma for_in_app {I S} (is1 is2 : list I) (step : I -> S -> body A S)
  (s : S) :
  for_in (is1 ++ is2) step s
  = bind (for_in is1 step s) (for_in is2 step).
Proof.
  revert s. induction is1 as [|i is1 IH]; intros s.
  - exact (eq_sym (bind_ret s _)).
  - change (bind (step i s) (for_in (is1 ++ is2) step)
            = bind (bind (step i s) (for_in is1 step)) (for_in is2 step)).
    rewrite bind_assoc. apply bind_ext. intros s'. apply IH.
Qed.
End Bodies.

(** ** A property of everything a body yields *)

Section AllYields.
Context {A : Type} (P : A -> Prop).

Lemma all_yields_ret {S} (s : S) : all_yields P (@ret A S s).
Proof. constructor. Qed.

Lemma all_yields_lift {S} (r : res S) : all_yields P (@lift A S r).
Proof. destruct r; constructor. Qed.

Lemma all_yields_exit {S} (e : ending) : all_yields P (@pair (list A) (flow S) [] (Exit e)).
Proof. constructor. Qed.

Lemma all_yields_bind {S T} (m : body A S) (k : S -> body A T) :
  all_yields P m -> (forall s, all_yields P (k s)) ->
  all_yields P (bind m k).
Proof.
  unfold all_yields. intros Hm Hk. destruct m as [ys [s|e]]; simpl in *.
  - specialize (Hk s). destruct (k s) as [zs f]. simpl in *.
    apply Forall_app. split; assumption.
  - assumption.
Qed.

Lemma all_yields_for_in {I S} (idxs : list I) (step : I -> S -> body A S)
  (s : S) :
  (forall i s', i ∈ idxs -> all_yields P (step i s')) ->
  all_yields P (for_in idxs step s).
Proof.
  revert s. induction idxs as [|i idxs IH]; intros s H; simpl.
  - apply all_yields_ret.
  - apply all_yields_bind.
    + apply H. left.
    + intros s'. apply IH. intros j s'' Hj. apply H. right. exact Hj.
Qed.

Lemma all_yields_for_gen {X S} (g : gen X) (step : X -> S -> body A S)
  (s : S) :
  (forall x s', x ∈ yields g -> all_yields P (step x s')) ->
  all_yields P (for_gen g step s).
Proof.
  intros H. unfold for_gen. apply all_yields_bind.
  - apply all_yields_for_in. exact H.
  - intros s'. destruct (ended g); constructor.
Qed.

Lemma all_yields_run {S} (m : body A S) :
  all_yields P m -> Forall P (yields (run m)).
Proof. destruct m as [ys [s|e]]; intros H; exact H. Qed.
End AllYields.

Lemma all_yields_yield_within (max_distance : Z) (seed : pyval) (d : Z) :
  all_yields (fun sd : pyval * Z => sd.2 <= max_distance)
    (yield_within max_distance seed d).
Proof.
  unfold yield_within. destruct (d <=? max_distance) eqn:E.
  - repeat constructor. simpl. lia.
  - constructor.
Qed.

Ltac bounded_yields :=
  repeat first
    [ apply all_yields_yield_within
    | apply all_yields_lift
    | apply all_yields_ret
    | apply all_yields_exit
    | apply all_yields_for_gen; intros [? ?] ? _
    | apply all_yields_for_in; intros ? ? _
    | apply all_yields_bind; [|intros ?]
    | match goal with |- all_yields _ (if ?c then _ else _) => destruct c end ].

Lemma rtl_bounded (fuel : nat) (element : pyval) (max_distance : Z) :
  0 <= max_distance ->
  Forall (fun sd => sd.2 <= max_distance) (yields (rtl fuel element max_distance)).
Proof.
  intros Hm. destruct fuel as [|fuel]; [constructor|].
  destruct element as [z|s|items|items]; simpl.
  - repeat constructor. exact Hm.
  - repeat constructor. exact Hm.
  - apply all_yields_run. unfold rtl_chain_step. bounded_yields.
  - apply all_yields_run. unfold rtl_snarl_step. bounded_yields.
Qed.

Lemma reach_bounded (contained_elements : list pyval) (max_distance : Z) :
  Forall (fun sd => sd.2 <= max_distance)
    (yields (zip_reachable_iterator contained_elements max_distance)).
Proof.
  apply all_yields_run. unfold reach_from, reach_step, reach_level,
    reach_snarl_step, reach_chain_step, return_, raise.
  bounded_yields.
Qed.

(** C3 (bound respected): with a non-negative bound, every distance yielded
    by the right-to-left walker, by the outward walker and by the all-pairs
    enumerator is at most the bound, on every element and every containment
    path. *)
Theorem bound_respected (element : pyval) (contained_elements : list pyval)
  (max_distance : Z) :
  0 <= max_distance ->
  Forall (fun sd => sd.2 <= max_distance)
    (yields (zip_element_right_to_left_iterator element max_distance)) /\
  Forall (fun sd => sd.2 <= max_distance)
    (yields (zip_reachable_iterator contained_elements max_distance)) /\
  Forall (fun t => t.2 <= max_distance)
    (yields (zip_element_pairs_iterator element max_distance)).
Proof.
  intros Hm. split; [|split].
  - apply rtl_bounded. exact Hm.
  - apply reach_bounded.
  - apply all_yields_run. apply all_yields_for_gen. intros [seed path] s _.
    apply all_yields_for_gen. intros [seed2 d] s' Hin.
    repeat constructor. simpl.
    pose proof (reach_bounded path max_distance) as H.
    rewrite Forall_forall in H. apply (H _ Hin).
Qed.

Lemma bound_respected_witness :
  Forall (fun sd => sd.2 <= 15)
    (yields (zip_element_right_to_left_iterator zip_tree 15)) /\
  Forall (fun sd => sd.2 <= 15)
    (yields (zip_reachable_iterator [zip_tree; PInt 14] 15)) /\
  Forall (fun t => t.2 <= 15)
    (yields (zip_element_pairs_iterator zip_tree 15)).
Proof. apply (bound_respected zip_tree [zip_tree; PInt 14] 15). lia. Defined.

(** ** Degenerate inputs *)

(** C9 (empty snarl): on a snarl that holds no chain entry, only a boundary
    record of one distance, the right-to-left walker and the left-to-right
    enumerator yield nothing. *)
Theorem empty_snarl_yields_nothing (d max_distance : Z) :
  zip_element_right_to_left_iterator (encode (Snarl [] [d])) max_distance
  = ([], Returned) /\
  zip_element_left_to_right_iterator (encode (Snarl [] [d])) = ([], Returned).
Proof. split; reflexivity. Qed.

(** C10 (nothing to reach): the outward walker yields nothing on the empty
    containment path, and so the all-pairs enumerator yields nothing on a
    tree that is a single seed. *)
Theorem lone_seed_has_no_pairs (seed : pyval) (max_distance : Z) :
  is_seed seed = true ->
  zip_reachable_iterator [] max_distance = ([], Returned) /\
  zip_element_pairs_iterator seed max_distance = ([], Returned).
Proof.
  intros H. split; [reflexivity|].
  destruct seed; try discriminate H; reflexivity.
Qed.

Lemma lone_seed_has_no_pairs_witness :
  zip_reachable_iterator [] 15 = ([], Returned) /\
  zip_element_pairs_iterator (PStr "a") 15 = ([], Returned).
Proof. apply (lone_seed_has_no_pairs (PStr "a") 15). reflexivity. Defined.

(** C6 (negative bound): the right-to-left walker on a seed yields the seed at
    distance 0 whatever the bound is, a negative one included, although its
    chain and snarl branches never yield a distance above the bound. *)
Theorem negative_bound_on_seed :
  zip_element_right_to_left_iterator (encode (Leaf (PStr "a"))) (-1)
  = ([(PStr "a", 0)], Returned).
Proof. reflexivity. Qed.

(** ** Stepping out of a snarl *)

(** C2, as stated, fails: after the round for a snarl the walker has added
    entry 0 of the seed's own chain entry (4 here), not entry 0 of the
    boundary record (1 here); the seed ["d"] outside the snarl is reported
    at distance 4 + 3, not 1 + 3. *)
Lemma step_out_is_not_boundary_entry :
  (let? b := getitem two_chain_snarl (-1) in getitem b 0) = Ok (PInt 1) /\
  reach_level 100 two_chain_snarl (PInt 1) 0 = ([(PStr "x", 2)], Next 4) /\
  4 <> 0 + 1 /\
  zip_reachable_iterator
    [PList [PStr "h"]; PInt 0; two_chain_snarl; PInt 1;
     PList [PStr "d"; PInt 3; two_chain_snarl]; PInt 2] 100
  = ([(PStr "x", 2); (PStr "d", 7)], Returned).
Proof. repeat split; try reflexivity. lia. Qed.

Lemma index_list_cons_0 {A} (x : A) (l : list A) : index_list (x :: l) 0 = Ok x.
Proof. reflexivity. Qed.

Lemma index_list_cons_1 {A} (x y : A) (l : list A) :
  index_list (x :: y :: l) 1 = Ok y.
Proof. reflexivity. Qed.

(** C2, amended: when the chains that precede chain [j] of a snarl have been
    walked, the walker adds entry 0 of chain entry [j] (the distance from the
    left side of the seed's chain to the left boundary of the snarl) to the
    accumulated distance; if the sum exceeds the bound the whole walk stops
    there, whatever containers follow on the path. *)
Theorem step_out_of_snarl (max_distance : Z) (items : list pyval)
  (j distance_from_right c : Z) (outer : list pyval) (ys : list (pyval * Z)) :
  for_in (py_range (j - 1) (-1) (-1))
    (reach_snarl_step max_distance (PTuple items) j distance_from_right) tt
  = (ys, Next tt) ->
  (let? e := getitem (PTuple items) j in
   let? x := getitem e 0 in as_int x) = Ok c ->
  reach_level max_distance (PTuple items) (PInt j) distance_from_right
  = (ys, if max_distance <? distance_from_right + c then Exit Returned
         else Next (distance_from_right + c)) /\
  (max_distance < distance_from_right + c ->
   reach_from (PTuple items :: PInt j :: outer) max_distance distance_from_right
   = (ys, Exit Returned)).
Proof.
  intros Hloop Hc.
  assert (Hlevel :
    reach_level max_distance (PTuple items) (PInt j) distance_from_right
    = (ys, if max_distance <? distance_from_right + c then Exit Returned
           else Next (distance_from_right + c))).
  { unfold reach_level. simpl is_tuple. cbv iota.
    simpl as_int. unfold lift at 1. rewrite bind_ret.
    rewrite Hloop. rewrite bind_next.
    destruct (getitem (PTuple items) j) as [e|x]; [|discriminate Hc].
    cbn [res_bind] in *.
    destruct (getitem e 0) as [x|x]; [|discriminate Hc].
    cbn [res_bind] in *.
    destruct (as_int x) as [z|x']; [|discriminate Hc].
    cbn [res_bind] in *. injection Hc as ->.
    unfold lift. rewrite bind_ret.
    destruct (max_distance <? distance_from_right + c);
      simpl; rewrite ?app_nil_r; reflexivity. }
  split; [exact Hlevel|].
  intros Hfar. unfold reach_from.
  rewrite py_range_up_cons by (unfold len; simpl; lia).
  simpl for_in. unfold reach_step at 1.
  rewrite index_list_cons_0. unfold lift at 1. rewrite bind_ret.
  change (0 + 1) with 1. rewrite index_list_cons_1.
  unfold lift at 1. rewrite bind_ret.
  rewrite Hlevel.
  destruct (max_distance <? distance_from_right + c) eqn:E; [|lia].
  reflexivity.
Qed.

Lemma step_out_of_snarl_witness :
  reach_level 3 two_chain_snarl (PInt 1) 0 = ([(PStr "x", 2)], Exit Returned) /\
  reach_from [two_chain_snarl; PInt 1;
              PList [PStr "d"; PInt 3; two_chain_snarl]; PInt 2] 3 0
  = ([(PStr "x", 2)], Exit Returned).
Proof.
  destruct (step_out_of_snarl 3
    [PTuple [PInt 2; PList [PStr "x"]];
     PTuple [PInt 4; PInt 2; PList [PStr "h"]];
     PTuple [PInt 1; PInt 2; PInt 1]] 1 0 4
    [PList [PStr "d"; PInt 3; two_chain_snarl]; PInt 2]
    [(PStr "x", 2)] eq_refl eq_refl) as [H1 H2].
  split; [exact H1|]. apply H2. lia.
Defined.

(** ** Subscripts *)

Lemma index_list_nat {A} (l : list A) (i : nat) (x : A) :
  l !! i = Some x -> index_list l (Z.of_nat i) = Ok x.
Proof.
  intros H. unfold index_list.
  rewrite (proj2 (Z.ltb_ge (Z.of_nat i) 0)) by lia.
  rewrite (proj2 (Z.ltb_ge (Z.of_nat i) 0)) by lia.
  rewrite Nat2Z.id, H. reflexivity.
Qed.

Lemma index_list_Z {A} (l : list A) (i : Z) (x : A) :
  0 <= i -> l !! Z.to_nat i = Some x -> index_list l i = Ok x.
Proof.
  intros Hi H. rewrite <- (Z2Nat.id i) by lia. apply index_list_nat. exact H.
Qed.

Lemma index_list_last {A} (l : list A) (x : A) :
  index_list (l ++ [x]) (-1) = Ok x.
Proof.
  unfold index_list, len. change (-1 <? 0) with true. cbv iota.
  rewrite length_app. simpl length.
  rewrite (proj2 (Z.ltb_ge _ 0)) by lia.
  replace (Z.to_nat (-1 + Z.of_nat (length l + 1))) with (length l + 0)%nat
    by lia.
  rewrite lookup_app_r by lia.
  replace (length l + 0 - length l)%nat with O by lia. reflexivity.
Qed.

Lemma map_fmap {A B} (f : A -> B) (l : list A) : map f l = f <$> l.
Proof. reflexivity. Qed.

Lemma lookup_total_Some (l : list Z) (i : nat) (x : Z) :
  l !! i = Some x -> l !!! i = x.
Proof. intros H. apply list_lookup_total_correct. exact H. Qed.

(** ** Structure of trees and of their encodings *)

Lemma encode_chain first rest :
  encode (Chain first rest) = PList (chain_items first rest).
Proof. reflexivity. Qed.

Lemma encode_snarl entries boundary :
  encode (Snarl entries boundary)
  = PTuple (map entry_item entries ++ [PTuple (map PInt boundary)]).
Proof. reflexivity. Qed.

Lemma chain_items_snoc first rest g c :
  chain_items first (rest ++ [(g, c)])
  = chain_items first rest ++ [PInt g; encode c].
Proof.
  unfold chain_items. rewrite flat_map_app. simpl. reflexivity.
Qed.

Lemma chain_items_length first rest :
  length (chain_items first rest) = S (2 * length rest).
Proof.
  unfold chain_items. simpl. f_equal.
  induction rest as [|gc rest IH]; simpl; [reflexivity|]. rewrite IH. lia.
Qed.

Lemma height_elem (x : pyval) (items : list pyval) :
  x ∈ items ->
  (height x <= foldr (fun y acc => Nat.max (height y) acc) O items)%nat.
Proof.
  induction 1 as [x l|x y l _ IH]; simpl; lia.
Qed.

Lemma height_chain_first first rest :
  (height (encode first) < height (encode (Chain first rest)))%nat.
Proof.
  rewrite encode_chain. simpl height.
  pose proof (height_elem (encode first) (chain_items first rest)) as H.
  simpl in H. specialize (H ltac:(left)). simpl. lia.
Qed.

Lemma height_chain_snoc first rest g c :
  (height (encode (Chain first rest))
   <= height (encode (Chain first (rest ++ [(g, c)]))))%nat /\
  (height (encode c) < height (encode (Chain first (rest ++ [(g, c)]))))%nat.
Proof.
  rewrite !encode_chain, chain_items_snoc. simpl height.
  rewrite foldr_app. simpl.
  remember (Nat.max (height (encode c)) 0) as a eqn:Ha.
  assert (Hmono : forall l b, (b <= foldr (fun y acc => Nat.max (height y) acc) b l)%nat
    /\ (foldr (fun y acc => Nat.max (height y) acc) 0%nat l
        <= foldr (fun y acc => Nat.max (height y) acc) b l)%nat).
  { induction l as [|y l IH]; intros b; simpl; [lia|].
    destruct (IH b). lia. }
  destruct (Hmono (chain_items first rest) a) as [H1 H2].
  assert (height (encode c) <= a)%nat.
  { subst a. lia. }
  unfold chain_items in H1, H2. simpl in H1, H2. lia.
Qed.

Lemma height_chain_rest first rest :
  Forall (fun gc =>
    (height (encode gc.2) < height (encode (Chain first rest)))%nat) rest.
Proof.
  rewrite Forall_forall. intros [g c] Hin. simpl.
  assert (encode c ∈ flat_map (fun gc => [PInt gc.1; encode gc.2]) rest)
    as Helem.
  { apply list_elem_of_In, in_flat_map. exists (g, c).
    split; [apply list_elem_of_In; exact Hin|]. simpl. tauto. }
  pose proof (height_elem _ _ Helem). lia.
Qed.

Lemma height_snarl_entries entries boundary :
  Forall (fun e =>
    (S (height (encode e.2)) < height (encode (Snarl entries boundary)))%nat)
    entries.
Proof.
  rewrite Forall_forall. intros [ds c] Hin. rewrite encode_snarl.
  assert (entry_item (ds, c)
          ∈ map entry_item entries ++ [PTuple (map PInt boundary)]) as Helem.
  { apply elem_of_app. left. apply list_elem_of_In, in_map.
    apply list_elem_of_In. exact Hin. }
  pose proof (height_elem _ _ Helem) as H.
  assert (encode c ∈ map PInt ds ++ [encode c]) as Hc.
  { apply elem_of_app. right. left. }
  pose proof (height_elem _ _ Hc) as H'.
  simpl in *. lia.
Qed.

(** What [ok] says, level by level. *)

Lemma ok_chain first rest :
  ok (Chain first rest) = true ->
  (is_chain first = false /\ ok first = true) /\
  Forall (fun gc => 0 <= gc.1 /\ is_chain gc.2 = false /\ ok gc.2 = true) rest.
Proof.
  simpl. intros H.
  apply andb_prop in H as [H Hrest]. apply andb_prop in H as [Hc Hf].
  split; [split; [apply negb_true_iff; exact Hc | exact Hf]|].
  induction rest as [|[g c] rest IH]; [constructor|].
  simpl in Hrest. apply andb_prop in Hrest as [H Hrest].
  apply andb_prop in H as [H Hok]. apply andb_prop in H as [Hg Hnc].
  constructor; [|apply IH; exact Hrest].
  simpl. repeat split; [lia | apply negb_true_iff; exact Hnc | exact Hok].
Qed.

Lemma ok_chain_prefix first rest rest' :
  ok (Chain first (rest ++ rest')) = true -> ok (Chain first rest) = true.
Proof.
  simpl. rewrite forallb_app. intros H.
  apply andb_prop in H as [H H']. apply andb_prop in H' as [H' _].
  rewrite H, H'. reflexivity.
Qed.

Lemma ok_chain_intro first rest :
  is_chain first = false -> ok first = true ->
  Forall (fun gc => 0 <= gc.1 /\ is_chain gc.2 = false /\ ok gc.2 = true) rest ->
  ok (Chain first rest) = true.
Proof.
  intros Hc Hok Hrest. simpl. rewrite Hc, Hok. simpl.
  induction Hrest as [|gc l (H1 & H2 & H3) _ IH]; [reflexivity|].
  simpl. rewrite H2, H3, IH. simpl. rewrite !andb_true_r.
  apply Z.leb_le. exact H1.
Qed.

Lemma nonneg_Forall (ds : list Z) :
  nonneg ds = true -> Forall (fun d => 0 <= d) ds.
Proof.
  unfold nonneg. induction ds as [|d ds IH]; simpl; intros H; [constructor|].
  apply andb_prop in H as [Hd H]. constructor; [lia | apply IH; exact H].
Qed.

Lemma ok_snarl entries boundary :
  ok (Snarl entries boundary) = true ->
  length boundary = S (length entries) /\
  Forall (fun d => 0 <= d) boundary /\
  (forall i e, entries !! i = Some e ->
     length e.1 = S i /\ Forall (fun d => 0 <= d) e.1) /\
  Forall (fun e => is_chain e.2 = true /\ ok e.2 = true) entries.
Proof.
  simpl. intros H.
  apply andb_prop in H as [H Hrec]. apply andb_prop in H as [H Hshape].
  apply andb_prop in H as [Hlen Hb].
  split; [apply Nat.eqb_eq; exact Hlen|].
  split; [apply nonneg_Forall; exact Hb|]. split.
  - intros i e Hi.
    rewrite forallb_forall in Hshape.
    specialize (Hshape ((length e.1 =? S i)%nat && nonneg e.1)).
    apply andb_prop in Hshape as [H1 H2].
    + split; [apply Nat.eqb_eq; exact H1 | apply nonneg_Forall; exact H2].
    + apply list_elem_of_In, list_elem_of_lookup. exists i.
      rewrite list_lookup_imap, Hi. reflexivity.
  - clear -Hrec. induction entries as [|e entries IH]; [constructor|].
    simpl in Hrec. apply andb_prop in Hrec as [H Hrec].
    apply andb_prop in H as [H1 H2].
    constructor; [split; assumption | apply IH; exact Hrec].
Qed.

(** ** Shifting and filtering distances *)

Lemma shift_app D l1 l2 : shift D (l1 ++ l2) = shift D l1 ++ shift D l2.
Proof. apply map_app. Qed.

Lemma shift_shift a b l : shift a (shift b l) = shift (b + a) l.
Proof.
  unfold shift. rewrite map_map. apply map_ext. intros [s d]. simpl.
  f_equal. lia.
Qed.

Lemma shift_0 l : shift 0 l = l.
Proof.
  unfold shift. rewrite <- (map_id l) at 2. apply map_ext. intros [s d].
  simpl. f_equal. lia.
Qed.

Lemma shift_concat D ls : shift D (concat ls) = concat (map (shift D) ls).
Proof. apply concat_map. Qed.

Lemma shift_fst D l : map fst (shift D l) = map fst l.
Proof. unfold shift. rewrite map_map. reflexivity. Qed.

Lemma within_app m l1 l2 : within m (l1 ++ l2) = within m l1 ++ within m l2.
Proof. apply filter_app. Qed.

Lemma far_nil D : far D [].
Proof. constructor. Qed.

Lemma far_app D l1 l2 : far D l1 -> far D l2 -> far D (l1 ++ l2).
Proof. intros H1 H2. apply Forall_app. split; assumption. Qed.

Lemma far_mono D D' l : D' <= D -> far D l -> far D' l.
Proof.
  intros Hle H. eapply Forall_impl; [exact H|]. simpl. intros sd. lia.
Qed.

Lemma far_shift a D l : far a l -> far (a + D) (shift D l).
Proof.
  unfold far, shift. intros H. rewrite Forall_map.
  eapply Forall_impl; [exact H|]. simpl. intros sd. lia.
Qed.

Lemma far_concat D ls : Forall (far D) ls -> far D (concat ls).
Proof.
  induction 1 as [|l ls Hl _ IH]; simpl; [constructor|].
  apply far_app; assumption.
Qed.

Lemma far_within D m l : far D l -> far D (within m l).
Proof.
  unfold far, within. rewrite !Forall_forall. intros H x Hx.
  apply list_elem_of_filter in Hx as [_ Hx]. apply H. exact Hx.
Qed.

Lemma within_far m D l : m < D -> far D l -> within m l = [].
Proof.
  intros Hlt. unfold within. induction 1 as [|sd l Hsd _ IH]; [reflexivity|].
  rewrite filter_cons_False by lia. exact IH.
Qed.

Lemma within_shift_within m D l :
  0 <= D -> within m (shift D (within m l)) = within m (shift D l).
Proof.
  intros HD. unfold within. induction l as [|[s d] l IH]; [reflexivity|].
  destruct (decide (d <= m)) as [Hd|Hd].
  - rewrite (filter_cons_True _ (s, d)) by exact Hd. simpl.
    destruct (decide (d + D <= m)) as [Hd'|Hd'].
    + rewrite !(filter_cons_True _ (s, d + D)) by exact Hd'.
      f_equal. exact IH.
    + rewrite !(filter_cons_False _ (s, d + D)) by exact Hd'. exact IH.
  - rewrite (filter_cons_False _ (s, d)) by exact Hd. simpl.
    rewrite (filter_cons_False _ (s, d + D)) by (simpl; lia). exact IH.
Qed.

(** ** Loops that yield what another walker found *)

Lemma for_in_emit (step : pyval * Z -> unit -> body (pyval * Z) unit)
  (m D : Z) (ys : list (pyval * Z)) :
  (forall sd u, sd ∈ ys -> step sd u = yield_within m sd.1 (sd.2 + D)) ->
  for_in ys step tt = (within m (shift D ys), Next tt).
Proof.
  unfold within. induction ys as [|[s d] ys IH]; intros Hstep;
    [reflexivity|].
  simpl for_in. rewrite Hstep by left. simpl.
  unfold yield_within.
  destruct (Z.leb_spec (d + D) m) as [Hle|Hgt].
  - unfold yield. rewrite bind_next.
    rewrite IH by (intros; apply Hstep; right; assumption).
    rewrite filter_cons_True by exact Hle. reflexivity.
  - rewrite bind_ret.
    rewrite IH by (intros; apply Hstep; right; assumption).
    rewrite filter_cons_False by (simpl; lia). reflexivity.
Qed.

Lemma for_gen_emit (step : pyval * Z -> unit -> body (pyval * Z) unit)
  (m D : Z) (ys : list (pyval * Z)) :
  (forall sd u, sd ∈ ys -> step sd u = yield_within m sd.1 (sd.2 + D)) ->
  for_gen (ys, Returned) step tt = (within m (shift D ys), Next tt).
Proof.
  intros Hstep. unfold for_gen. simpl yields. simpl ended.
  rewrite (for_in_emit step m D ys Hstep). rewrite bind_next. simpl.
  rewrite app_nil_r. reflexivity.
Qed.

Lemma bind_lift_ok {A S T} (x : S) (k : S -> body A T) :
  bind (lift (Ok x)) k = k x.
Proof. unfold lift. apply bind_ret. Qed.

Lemma index_list_at {A} (l1 : list A) (x : A) (l2 : list A) (i : Z) :
  i = len l1 -> index_list (l1 ++ x :: l2) i = Ok x.
Proof.
  intros ->. unfold len. apply index_list_nat.
  rewrite lookup_app_r by lia. rewrite Nat.sub_diag. reflexivity.
Qed.

Lemma index_list_app_l {A} (l1 l2 : list A) (i : Z) :
  0 <= i < len l1 -> index_list (l1 ++ l2) i = index_list l1 i.
Proof.
  unfold len. intros Hi. unfold index_list.
  rewrite !(proj2 (Z.ltb_ge i 0)) by lia.
  rewrite lookup_app_l by lia. reflexivity.
Qed.

(** ** What the right-to-left walker yields on a well-formed tree *)

Lemma right_parts_snoc first rest g c :
  right_parts first (rest ++ [(g, c)])
  = right_parts first rest ++ [(g, cross c, to_right c)].
Proof. unfold right_parts. rewrite map_app. reflexivity. Qed.

Lemma span_snoc {A} (ps : list (part A)) (p : part A) :
  span (ps ++ [p]) = span ps + p.1.1 + p.1.2.
Proof.
  unfold span. induction ps as [|q ps IH]; simpl; [lia|]. rewrite IH. lia.
Qed.

Lemma chain_right_snoc ps p :
  chain_right (ps ++ [p]) = p.2 ++ shift (p.1.1 + p.1.2) (chain_right ps).
Proof.
  induction ps as [|q ps IH]; simpl.
  - rewrite shift_0, app_nil_r. reflexivity.
  - rewrite IH, span_snoc, shift_app, shift_shift, <- app_assoc.
    do 3 f_equal. lia.
Qed.

Lemma nonneg_lookup_total (l : list Z) (i : nat) :
  Forall (fun d => 0 <= d) l -> 0 <= l !!! i.
Proof.
  intros H. destruct (l !! i) as [x|] eqn:E.
  - rewrite (lookup_total_Some _ _ _ E).
    rewrite Forall_forall in H. apply H.
    apply list_elem_of_lookup. exists i. exact E.
  - rewrite list_lookup_total_alt, E. cbv. discriminate.
Qed.

Lemma cross_nonneg t : ok t = true -> 0 <= cross t.
Proof.
  destruct t as [seed|first rest|entries boundary]; simpl cross;
    [lia | lia |].
  intros H. apply ok_snarl in H as (_ & Hb & _).
  destruct boundary as [|c b]; [lia|].
  apply Forall_cons in Hb as [Hc _]. exact Hc.
Qed.

Lemma chain_right_far ps :
  Forall (fun p : part (list (pyval * Z)) =>
            0 <= p.1.1 /\ 0 <= p.1.2 /\ far 0 p.2) ps ->
  0 <= span ps /\ far 0 (chain_right ps).
Proof.
  induction 1 as [|p ps (Hg & Hc & Hr) _ [IHs IHr]]; simpl.
  - split; [lia | constructor].
  - split; [lia|]. apply far_app; [exact IHr|].
    apply (far_mono (0 + span ps)); [lia|]. apply far_shift. exact Hr.
Qed.

Lemma to_right_far t : ok t = true -> far 0 (to_right t).
Proof.
  induction t as [seed|first rest IHfirst IHrest|entries boundary IH]
    using ztree_ind'; intros Hok.
  - repeat constructor. simpl. lia.
  - apply ok_chain in Hok as [[_ Hfirst] Hrest].
    apply chain_right_far. constructor.
    + simpl. split; [lia|]. split; [apply cross_nonneg; exact Hfirst|].
      apply IHfirst. exact Hfirst.
    + rewrite Forall_map.
      rewrite Forall_forall in IHrest, Hrest. rewrite Forall_forall.
      intros gc Hin. destruct (Hrest gc Hin) as (Hg & _ & Hc). simpl.
      split; [exact Hg|]. split; [apply cross_nonneg; exact Hc|].
      apply IHrest; assumption.
  - apply ok_snarl in Hok as (_ & Hb & _ & Hrec).
    simpl. unfold snarl_right. apply far_concat.
    rewrite Forall_forall. intros l Hl.
    rewrite elem_of_reverse in Hl.
    apply list_elem_of_lookup in Hl as [i Hi].
    rewrite list_lookup_imap, map_fmap, list_lookup_fmap in Hi.
    destruct (entries !! i) as [e|] eqn:E; [|discriminate Hi].
    simpl in Hi. injection Hi as <-.
    apply (far_mono (0 + boundary !!! S i)).
    { pose proof (nonneg_lookup_total boundary (S i) Hb). lia. }
    apply far_shift.
    rewrite Forall_forall in IH, Hrec.
    assert (e ∈ entries) as He
      by (apply list_elem_of_lookup; exists i; exact E).
    apply IH; [exact He | apply Hrec; exact He].
Qed.

Lemma span_right_parts_nonneg first rest :
  ok (Chain first rest) = true -> 0 <= span (right_parts first rest).
Proof.
  intros Hok. apply ok_chain in Hok as [[_ Hfirst] Hrest].
  apply chain_right_far. constructor.
  - simpl. split; [lia|]. split; [apply cross_nonneg; exact Hfirst|].
    apply to_right_far. exact Hfirst.
  - rewrite Forall_map. eapply Forall_impl; [exact Hrest|].
    simpl. intros gc (Hg & _ & Hc).
    split; [exact Hg|]. split; [apply cross_nonneg; exact Hc|].
    apply to_right_far. exact Hc.
Qed.

Lemma within_shift_rtl_yields m D t :
  0 <= D ->
  within m (shift D (rtl_yields m t)) = within m (shift D (to_right t)).
Proof.
  intros HD. destruct t; simpl rtl_yields;
    [reflexivity | apply within_shift_within; exact HD
                 | apply within_shift_within; exact HD].
Qed.

Lemma is_tuple_encode t :
  ok t = true -> is_chain t = false ->
  is_tuple (encode t) = negb (is_leaf t).
Proof.
  destruct t as [seed| |]; simpl; intros Hok Hc;
    [|discriminate Hc|reflexivity].
  unfold is_seed in Hok. apply andb_prop in Hok as [H _].
  apply negb_true_iff in H. exact H.
Qed.

Lemma cross_lookup t D :
  ok t = true -> is_chain t = false ->
  (if is_tuple (encode t) then
     lift (let? b := getitem (encode t) (-1) in
           let? x := getitem b 0 in
           let? x := as_int x in
           Ok (D + x))
   else ret D) = (ret (D + cross t) : body (pyval * Z) Z).
Proof.
  intros Hok Hc. rewrite (is_tuple_encode t Hok Hc).
  destruct t as [seed|first rest|entries boundary]; simpl negb; cbv iota.
  - simpl cross. rewrite Z.add_0_r. reflexivity.
  - discriminate Hc.
  - apply ok_snarl in Hok as (Hlen & _).
    destruct boundary as [|c b]; [discriminate Hlen|].
    rewrite encode_snarl. simpl getitem. rewrite index_list_last.
    reflexivity.
Qed.

Lemma rtl_chain_step_ok walk m items i c D gap :
  ok c = true -> is_chain c = false ->
  walk (encode c) m = (rtl_yields m c, Returned) ->
  getitem (PList items) i = Ok (encode c) ->
  (if 0 <? i
   then (let? x := getitem (PList items) (i - 1) in as_int x) = Ok gap
   else gap = 0) ->
  0 <= D ->
  rtl_chain_step walk (PList items) m i D
  = (within m (shift D (to_right c)),
     if m <? D + cross c + gap then Exit Returned
     else Next (D + cross c + gap)).
Proof.
  intros Hok Hc Hwalk Hget Hgap HD. unfold rtl_chain_step.
  rewrite Hget, bind_lift_ok, Hwalk.
  rewrite (for_gen_emit _ m D) by (intros [s d] u _; reflexivity).
  rewrite within_shift_rtl_yields by exact HD.
  rewrite bind_next. rewrite (cross_lookup c D Hok Hc), bind_ret.
  destruct (0 <? i).
  - destruct (getitem (PList items) (i - 1)) as [x|x]; [|discriminate Hgap].
    cbn [res_bind] in *. destruct (as_int x) as [z|x']; [|discriminate Hgap].
    injection Hgap as ->. cbn [res_bind]. rewrite bind_lift_ok.
    destruct (m <? D + cross c + gap); simpl; rewrite app_nil_r; reflexivity.
  - subst gap. rewrite bind_ret. rewrite Z.add_0_r.
    destruct (m <? D + cross c); simpl; rewrite app_nil_r; reflexivity.
Qed.

(** The loop of the walker over a chain, however long the list goes on after
    the chain's own items. *)
Lemma rtl_chain_loop walk m first rest :
  ok (Chain first rest) = true ->
  walk (encode first) m = (rtl_yields m first, Returned) ->
  Forall (fun gc => walk (encode gc.2) m = (rtl_yields m gc.2, Returned)) rest ->
  forall suf D, 0 <= D ->
  for_in (py_range (len (chain_items first rest) - 1) (-1) (-2))
    (rtl_chain_step walk (PList (chain_items first rest ++ suf)) m) D
  = (within m (shift D (chain_right (right_parts first rest))),
     if m <? D + span (right_parts first rest) then Exit Returned
     else Next (D + span (right_parts first rest))).
Proof.
  induction rest as [|[g c] rest IH] using rev_ind;
    intros Hok Hfirst Hrest suf D HD.
  - apply ok_chain in Hok as [[Hc Hokf] _].
    change (len (chain_items first []) - 1) with 0.
    rewrite py_range_down2_cons by lia.
    rewrite py_range_down2_nil by lia. cbn [for_in].
    rewrite (rtl_chain_step_ok walk m _ 0 first D 0 Hokf Hc Hfirst)
      by (reflexivity || exact HD).
    simpl. rewrite shift_0, !Z.add_0_r, Z.add_0_l.
    destruct (m <? D + cross first); rewrite ?app_nil_r; reflexivity.
  - pose proof (span_right_parts_nonneg _ _ Hok) as Hspan.
    pose proof (ok_chain_prefix _ _ _ Hok) as Hok'.
    apply ok_chain in Hok as [[Hc Hokf] Hokrest].
    apply Forall_app in Hokrest as [Hokrest Hokc].
    apply Forall_cons in Hokc as [(Hg & Hcc & Hokc) _]. simpl in Hg, Hcc, Hokc.
    apply Forall_app in Hrest as [Hrest Hwc].
    apply Forall_cons in Hwc as [Hwc _]. simpl in Hwc.
    pose proof (span_right_parts_nonneg _ _ Hok') as Hspan'.
    rewrite right_parts_snoc, chain_right_snoc, span_snoc. simpl fst. simpl snd.
    rewrite right_parts_snoc, span_snoc in Hspan. simpl in Hspan.
    pose proof (cross_nonneg c Hokc) as Hcross.
    rewrite chain_items_snoc.
    assert (Hlen : len (chain_items first rest ++ [PInt g; encode c]) - 1
                   = len (chain_items first rest) + 1).
    { unfold len. rewrite length_app. simpl. lia. }
    rewrite Hlen.
    rewrite py_range_down2_cons by (unfold len; lia).
    replace (len (chain_items first rest) + 1 - 2)
      with (len (chain_items first rest) - 1) by lia.
    cbn [for_in].
    rewrite (rtl_chain_step_ok walk m _ _ c D g Hokc Hcc Hwc); [| | |exact HD].
    + rewrite shift_app, within_app, shift_shift.
      destruct (Z.ltb_spec m (D + cross c + g)) as [Hfar|Hnear].
      * rewrite bind_exit.
        rewrite (within_far m (0 + (g + cross c + D))
                   (shift (g + cross c + D)
                      (chain_right (right_parts first rest)))); [| lia |].
        -- rewrite app_nil_r.
           destruct (Z.ltb_spec m
             (D + (span (right_parts first rest) + g + cross c))); [|lia].
           reflexivity.
        -- apply far_shift. apply to_right_far in Hok'. exact Hok'.
      * rewrite bind_next.
        rewrite <- (app_assoc (chain_items first rest)).
        rewrite (IH Hok' Hfirst Hrest) by lia. cbn [fst snd].
        replace (g + cross c + D) with (D + cross c + g) by lia.
        replace (D + cross c + g + span (right_parts first rest))
          with (D + (span (right_parts first rest) + g + cross c)) by lia.
        reflexivity.
    + cbn [getitem].
      replace ((chain_items first rest ++ [PInt g; encode c]) ++ suf)
        with ((chain_items first rest ++ [PInt g]) ++ encode c :: suf)
        by (rewrite <- !app_assoc; reflexivity).
      apply index_list_at. unfold len. rewrite length_app. simpl. lia.
    + destruct (Z.ltb_spec 0 (len (chain_items first rest) + 1));
        [|unfold len in *; lia].
      cbn [getitem].
      replace (len (chain_items first rest) + 1 - 1)
        with (len (chain_items first rest)) by lia.
      rewrite <- !app_assoc. cbn [app].
      rewrite (index_list_at _ (PInt g)) by reflexivity. reflexivity.
Qed.

Lemma snarl_right_snoc boundary rs r :
  snarl_right boundary (rs ++ [r])
  = shift (boundary !!! S (length rs)) r ++ snarl_right boundary rs.
Proof.
  unfold snarl_right. rewrite imap_app, reverse_app. simpl.
  rewrite Nat.add_0_r. reflexivity.
Qed.

Lemma getitem_entry_chain e : getitem (entry_item e) (-1) = Ok (encode e.2).
Proof. unfold entry_item. cbn [getitem]. apply index_list_last. Qed.

Lemma getitem_ints (ds : list Z) (i : nat) (d : Z) :
  ds !! i = Some d ->
  (let? x := getitem (PTuple (map PInt ds)) (Z.of_nat i) in as_int x) = Ok d.
Proof.
  intros H. cbn [getitem].
  rewrite (index_list_nat _ i (PInt d)).
  - reflexivity.
  - rewrite map_fmap, list_lookup_fmap, H. reflexivity.
Qed.

Lemma rtl_snarl_step_ok walk m items i e b :
  getitem (PTuple items) i = Ok (entry_item e) ->
  walk (encode e.2) m = (rtl_yields m e.2, Returned) ->
  (let? bd := getitem (PTuple items) (-1) in
   let? x := getitem bd (i + 1) in as_int x) = Ok b ->
  0 <= b ->
  rtl_snarl_step walk (PTuple items) m i tt
  = (within m (shift b (to_right e.2)), Next tt).
Proof.
  intros Hget Hwalk Hb Hpos. unfold rtl_snarl_step.
  rewrite Hget. cbn [res_bind]. rewrite getitem_entry_chain, bind_lift_ok.
  rewrite Hwalk.
  rewrite (for_gen_emit _ m b).
  - rewrite within_shift_rtl_yields by exact Hpos. reflexivity.
  - intros [s d] u _.
    destruct (getitem (PTuple items) (-1)) as [bd|x]; [|discriminate Hb].
    cbn [res_bind] in *.
    destruct (getitem bd (i + 1)) as [x|x]; [|discriminate Hb].
    cbn [res_bind] in *.
    destruct (as_int x) as [z|x']; [|discriminate Hb].
    injection Hb as ->. cbn [res_bind]. rewrite bind_lift_ok. reflexivity.
Qed.

(** The loop of the walker over the chain entries of a snarl. *)
Lemma rtl_snarl_loop walk m boundary entries :
  Forall (fun e => walk (encode e.2) m = (rtl_yields m e.2, Returned)) entries ->
  Forall (fun d => 0 <= d) boundary ->
  (length entries < length boundary)%nat ->
  forall suf,
  getitem (PTuple (map entry_item entries ++ suf)) (-1)
  = Ok (PTuple (map PInt boundary)) ->
  for_in (py_range (len entries - 1) (-1) (-1))
    (rtl_snarl_step walk (PTuple (map entry_item entries ++ suf)) m) tt
  = (within m (snarl_right boundary (map (fun e => to_right e.2) entries)),
     Next tt).
Proof.
  induction entries as [|e entries IH] using rev_ind;
    intros Hwalk Hb Hlen suf Hlast.
  - rewrite py_range_down1_nil by (unfold len; simpl; lia). reflexivity.
  - apply Forall_app in Hwalk as [Hwalk He].
    apply Forall_cons in He as [He _].
    rewrite length_app in Hlen. simpl in Hlen.
    assert (Hl : len (entries ++ [e]) - 1 = len entries).
    { unfold len. rewrite length_app. simpl. lia. }
    rewrite Hl. rewrite py_range_down1_cons by (unfold len; lia).
    cbn [for_in].
    destruct (lookup_lt_is_Some_2 boundary (S (length entries))) as [b Hbi];
      [lia|].
    assert (Hb0 : 0 <= b).
    { rewrite Forall_forall in Hb. apply Hb.
      apply list_elem_of_lookup. exists (S (length entries)). exact Hbi. }
    rewrite (rtl_snarl_step_ok walk m _ _ e b); [| |exact He| |exact Hb0].
    + rewrite bind_next.
      rewrite map_app in *. cbn [map] in *.
      rewrite <- (app_assoc (map entry_item entries)) in *.
      rewrite (IH Hwalk Hb ltac:(lia) _ Hlast). cbn [fst snd].
      rewrite map_app. cbn [map].
      rewrite snarl_right_snoc, within_app, length_map.
      rewrite (lookup_total_Some _ _ _ Hbi). reflexivity.
    + cbn [getitem]. rewrite map_app. cbn [map].
      rewrite <- app_assoc. apply index_list_at.
      unfold len. rewrite length_map. reflexivity.
    + rewrite Hlast. cbn [res_bind].
      replace (len entries + 1) with (Z.of_nat (S (length entries)))
        by (unfold len; lia).
      apply getitem_ints. exact Hbi.
Qed.

(** On a well-formed tree the walker returns, with any recursion budget above
    the height of the tree, and yields exactly the seeds whose distance to
    the right end is within the bound (a lone seed comes out at distance 0
    whatever the bound is). *)
Lemma rtl_ok m t :
  ok t = true ->
  forall n, (height (encode t) < n)%nat ->
  rtl n (encode t) m = (rtl_yields m t, Returned).
Proof.
  induction t as [seed|first rest IHfirst IHrest|entries boundary IH]
    using ztree_ind'; intros Hok n Hn.
  - destruct n as [|n]; [lia|]. simpl in Hok.
    destruct seed; try discriminate Hok; reflexivity.
  - destruct n as [|n]; [lia|].
    rewrite encode_chain. cbn [rtl].
    rewrite <- (app_nil_r (chain_items first rest)) at 2.
    pose proof (ok_chain _ _ Hok) as [[_ Hokf] Hokr].
    rewrite (rtl_chain_loop (rtl n) m first rest Hok); [| | |lia].
    + rewrite shift_0. cbn [rtl_yields to_right].
      destruct (m <? 0 + span (right_parts first rest)); reflexivity.
    + apply IHfirst; [exact Hokf|].
      pose proof (height_chain_first first rest). lia.
    + pose proof (height_chain_rest first rest) as Hh.
      rewrite Forall_forall in *. intros gc Hin.
      apply IHrest; [exact Hin | apply Hokr; exact Hin|].
      specialize (Hh gc Hin). cbv beta in Hh. lia.
  - destruct n as [|n]; [lia|].
    rewrite encode_snarl. cbn [rtl].
    pose proof (ok_snarl _ _ Hok) as (Hlen & Hb & _ & Hrec).
    replace (len (map entry_item entries ++ [PTuple (map PInt boundary)]) - 2)
      with (len entries - 1)
      by (unfold len; rewrite length_app, length_map; simpl; lia).
    rewrite (rtl_snarl_loop (rtl n) m boundary entries); [reflexivity| | | |].
    + pose proof (height_snarl_entries entries boundary) as Hh.
      rewrite Forall_forall in *. intros e Hin.
      apply IH; [exact Hin | apply Hrec; exact Hin|].
      specialize (Hh e Hin). cbv beta in Hh. lia.
    + exact Hb.
    + lia.
    + cbn [getitem]. apply index_list_last.
Qed.

Lemma rtl_top_ok m t :
  ok t = true ->
  zip_element_right_to_left_iterator (encode t) m = (rtl_yields m t, Returned).
Proof. intros Hok. apply rtl_ok; [exact Hok | lia]. Qed.

(** ** Chains of seeds: distances grow from right to left *)

Lemma nondecreasing_within m l : nondecreasing l -> nondecreasing (within m l).
Proof.
  unfold nondecreasing, within.
  induction 1 as [|a l _ IH Ha]; [constructor|].
  destruct (decide (a.2 <= m)) as [H|H].
  - rewrite filter_cons_True by exact H. constructor; [exact IH|].
    rewrite Forall_forall in *. intros x Hx.
    apply list_elem_of_filter in Hx as [_ Hx]. apply Ha. exact Hx.
  - rewrite filter_cons_False by exact H. exact IH.
Qed.

Lemma chain_of_seeds_nondecreasing ps :
  Forall (fun p : part (list (pyval * Z)) =>
            0 <= p.1.1 /\ 0 <= p.1.2 /\ exists seed, p.2 = [(seed, 0)]) ps ->
  nondecreasing (chain_right ps) /\
  Forall (fun sd => sd.2 <= span ps) (chain_right ps).
Proof.
  unfold nondecreasing.
  induction 1 as [|p ps (Hg & Hc & seed & Hp) _ [IHs IHb]]; simpl.
  - split; constructor.
  - rewrite Hp. simpl. split.
    + apply StronglySorted_app. split; [|split].
      * intros x1 x2 H1 H2. apply list_elem_of_singleton in H2 as ->.
        simpl. rewrite Forall_forall in IHb. specialize (IHb x1 H1). lia.
      * exact IHs.
      * repeat constructor.
    + apply Forall_app. split.
      * eapply Forall_impl; [exact IHb|]. simpl. intros sd. lia.
      * repeat constructor. simpl. lia.
Qed.

(** C7 (monotonicity within a chain): on a chain whose sub-elements are all
    seeds, the distances to the right end that the right-to-left walker
    yields never decrease along the walk, whatever the bound. *)
Theorem chain_of_seeds_monotone (first : ztree) (rest : list (Z * ztree))
  (max_distance : Z) :
  ok (Chain first rest) = true ->
  is_leaf first = true ->
  forallb (fun gc => is_leaf gc.2) rest = true ->
  StronglySorted (fun a b => a.2 <= b.2)
    (yields (zip_element_right_to_left_iterator (encode (Chain first rest))
               max_distance)).
Proof.
  intros Hok Hfirst Hrest. rewrite (rtl_top_ok _ _ Hok).
  cbn [yields fst rtl_yields]. apply nondecreasing_within.
  apply chain_of_seeds_nondecreasing.
  apply ok_chain in Hok as [_ Hokr].
  constructor.
  - simpl. destruct first; try discriminate Hfirst. simpl.
    repeat split; try lia. eexists. reflexivity.
  - rewrite Forall_map. rewrite forallb_forall in Hrest.
    rewrite Forall_forall in *. intros gc Hin.
    destruct (Hokr gc Hin) as (Hg & _ & _).
    specialize (Hrest gc (proj1 (list_elem_of_In _ _) Hin)).
    destruct gc as [g c]. simpl in *. destruct c; try discriminate Hrest.
    simpl. repeat split; try lia. eexists. reflexivity.
Qed.

Lemma chain_of_seeds_monotone_witness :
  StronglySorted (fun a b => a.2 <= b.2)
    (yields (zip_element_right_to_left_iterator
       (encode (Chain (Leaf (PStr "a"))
                  [(3, Leaf (PStr "b")); (5, Leaf (PStr "c"))])) 6)).
Proof.
  apply (chain_of_seeds_monotone (Leaf (PStr "a"))
           [(3, Leaf (PStr "b")); (5, Leaf (PStr "c"))] 6); reflexivity.
Defined.

(** ** Early termination on chains, none on snarls *)

Lemma to_right_chain first rest :
  to_right (Chain first rest) = chain_right (right_parts first rest).
Proof. reflexivity. Qed.

Lemma snarl_yields_by_entry m boundary entries :
  Forall (fun d => 0 <= d) boundary ->
  within m (snarl_right boundary (map (fun e => to_right e.2) entries))
  = concat (reverse (imap (fun i (e : list Z * ztree) =>
      within m (shift (boundary !!! S i) (rtl_yields m e.2))) entries)).
Proof.
  intros Hb. induction entries as [|e entries IH] using rev_ind;
    [reflexivity|].
  rewrite map_app. cbn [map]. rewrite snarl_right_snoc, within_app, IH.
  rewrite imap_app, reverse_app. simpl. rewrite Nat.add_0_r, length_map.
  rewrite within_shift_rtl_yields
    by (apply nonneg_lookup_total; exact Hb).
  rewrite ?app_nil_r. reflexivity.
Qed.

Lemma height_items_app (pre items : list pyval) :
  (height (PList items) <= height (PList (pre ++ items)))%nat.
Proof. induction pre as [|x pre IH]; simpl in *; lia. Qed.

(** The loop of the walker over the part of a list on the right of a gap,
    whatever the list holds on the left of the gap: when that part is a
    well-formed chain and its length plus the gap passes the bound, the loop
    ends the walk before it reads anything on the left of the gap. *)
Lemma rtl_chain_loop_cut walk m pre g c right :
  ok (Chain c right) = true ->
  walk (encode c) m = (rtl_yields m c, Returned) ->
  Forall (fun gc => walk (encode gc.2) m = (rtl_yields m gc.2, Returned))
    right ->
  forall suf D, 0 <= D ->
  m < D + span (right_parts c right) + g ->
  for_in (py_range (len (pre ++ PInt g :: chain_items c right) - 1) (-1) (-2))
    (rtl_chain_step walk (PList (pre ++ PInt g :: chain_items c right ++ suf))
       m) D
  = (within m (shift D (chain_right (right_parts c right))), Exit Returned).
Proof.
  induction right as [|[g' c'] right IH] using rev_ind;
    intros Hok Hc Hright suf D HD Hfar.
  - apply ok_chain in Hok as [[Hcc Hokc] _].
    change (chain_items c []) with [encode c].
    replace (len (pre ++ [PInt g; encode c]) - 1) with (len pre + 1)
      by (unfold len; rewrite length_app; simpl; lia).
    rewrite py_range_down2_cons by (unfold len; lia). cbn [for_in].
    cbn [right_parts map chain_right span foldr fst snd app] in *.
    rewrite (rtl_chain_step_ok walk m _ (len pre + 1) c D g Hokc Hcc Hc);
      [| | |exact HD].
    + rewrite (proj2 (Z.ltb_lt m (D + cross c + g))) by lia.
      rewrite bind_exit, shift_0. reflexivity.
    + cbn [getitem].
      replace (pre ++ PInt g :: encode c :: suf)
        with ((pre ++ [PInt g]) ++ encode c :: suf)
        by (rewrite <- app_assoc; reflexivity).
      apply index_list_at. unfold len. rewrite length_app. simpl. lia.
    + destruct (Z.ltb_spec 0 (len pre + 1)); [|unfold len in *; lia].
      cbn [getitem app]. replace (len pre + 1 - 1) with (len pre) by lia.
      rewrite (index_list_at pre (PInt g)) by reflexivity. reflexivity.
  - pose proof (ok_chain_prefix _ _ _ Hok) as Hok'.
    apply ok_chain in Hok as [_ Hokrest].
    apply Forall_app in Hokrest as [_ Hokc].
    apply Forall_cons in Hokc as [(Hg & Hcc & Hokc) _].
    simpl in Hg, Hcc, Hokc.
    apply Forall_app in Hright as [Hright Hwc].
    apply Forall_cons in Hwc as [Hwc _]. simpl in Hwc.
    pose proof (cross_nonneg c' Hokc) as Hcross.
    rewrite right_parts_snoc, span_snoc in Hfar. cbn [fst snd] in Hfar.
    rewrite right_parts_snoc, chain_right_snoc. simpl fst. simpl snd.
    rewrite chain_items_snoc.
    assert (Hlen : len (pre ++ PInt g
                          :: chain_items c right ++ [PInt g'; encode c']) - 1
                   = len (pre ++ PInt g :: chain_items c right) + 1).
    { unfold len. rewrite !length_app. simpl. rewrite length_app. simpl. lia. }
    rewrite Hlen.
    rewrite py_range_down2_cons by (unfold len; lia).
    replace (len (pre ++ PInt g :: chain_items c right) + 1 - 2)
      with (len (pre ++ PInt g :: chain_items c right) - 1) by lia.
    cbn [for_in].
    rewrite (rtl_chain_step_ok walk m _ _ c' D g' Hokc Hcc Hwc);
      [| | |exact HD].
    + rewrite shift_app, within_app, shift_shift.
      destruct (Z.ltb_spec m (D + cross c' + g')) as [Hcut|Hnear].
      * rewrite bind_exit.
        rewrite (within_far m (0 + (g' + cross c' + D))
                   (shift (g' + cross c' + D)
                      (chain_right (right_parts c right)))); [| lia |].
        -- rewrite app_nil_r. reflexivity.
        -- apply far_shift. apply to_right_far in Hok'. exact Hok'.
      * rewrite bind_next.
        rewrite <- (app_assoc (chain_items c right)).
        rewrite (IH Hok' Hc Hright) by lia. cbn [fst snd].
        replace (g' + cross c' + D) with (D + cross c' + g') by lia.
        reflexivity.
    + cbn [getitem].
      replace (pre ++ PInt g
                 :: (chain_items c right ++ [PInt g'; encode c']) ++ suf)
        with ((pre ++ PInt g :: chain_items c right ++ [PInt g'])
                ++ encode c' :: suf)
        by (rewrite <- ?app_assoc; cbn [app]; rewrite <- ?app_assoc;
            reflexivity).
      apply index_list_at. unfold len. rewrite !length_app. simpl.
      rewrite length_app. simpl. lia.
    + destruct (Z.ltb_spec 0 (len (pre ++ PInt g :: chain_items c right) + 1));
        [|unfold len in *; lia].
      cbn [getitem].
      replace (len (pre ++ PInt g :: chain_items c right) + 1 - 1)
        with (len (pre ++ PInt g :: chain_items c right)) by lia.
      replace (pre ++ PInt g
                 :: (chain_items c right ++ [PInt g'; encode c']) ++ suf)
        with ((pre ++ PInt g :: chain_items c right)
                ++ PInt g' :: encode c' :: suf)
        by (rewrite <- ?app_assoc; cbn [app]; rewrite <- ?app_assoc;
            reflexivity).
      rewrite (index_list_at _ (PInt g')) by reflexivity. reflexivity.
Qed.

(** C5 (early termination): on a chain, once the running distance from the
    right end (the length of everything on the right of a gap, plus the gap)
    exceeds the bound, the right-to-left walker yields nothing from the left
    of that gap, whatever the list holds there (well-formed or not, with
    negative gaps or values that are no distances): it does what it does on
    the right part alone, and returns normally.  On a snarl nothing is cut
    short: the walker yields, for every chain entry [i] from the last to the
    first, every seed that the walk of chain [i] yields whose distance plus
    entry [i+1] of the boundary record is within the bound. *)
Theorem chain_stops_snarl_does_not (pre : list pyval) (g : Z) (c : ztree)
  (right : list (Z * ztree))
  (entries : list (list Z * ztree)) (boundary : list Z) (max_distance : Z) :
  (ok (Chain c right) = true ->
   max_distance < g + span (right_parts c right) ->
   zip_element_right_to_left_iterator
     (PList (pre ++ PInt g :: chain_items c right)) max_distance
   = zip_element_right_to_left_iterator (encode (Chain c right)) max_distance)
  /\
  (ok (Snarl entries boundary) = true ->
   zip_element_right_to_left_iterator (encode (Snarl entries boundary))
     max_distance
   = (concat (reverse (imap (fun i (e : list Z * ztree) =>
        within max_distance
          (shift (boundary !!! S i)
             (yields (zip_element_right_to_left_iterator (encode e.2)
                        max_distance)))) entries)),
      Returned)).
Proof.
  split.
  - intros Hok Hfar.
    rewrite (rtl_top_ok _ _ Hok). cbn [rtl_yields]. rewrite to_right_chain.
    unfold zip_element_right_to_left_iterator.
    remember (height (PList (pre ++ PInt g :: chain_items c right))) as h
      eqn:Hh.
    cbn [rtl].
    assert (Hsub : (height (encode (Chain c right)) <= h)%nat).
    { subst h. rewrite encode_chain.
      replace (pre ++ PInt g :: chain_items c right)
        with ((pre ++ [PInt g]) ++ chain_items c right)
        by (rewrite <- app_assoc; reflexivity).
      apply height_items_app. }
    pose proof (ok_chain _ _ Hok) as [[_ Hokc] Hokr].
    replace (PList (pre ++ PInt g :: chain_items c right))
      with (PList (pre ++ PInt g :: chain_items c right ++ []))
      by (rewrite app_nil_r; reflexivity).
    rewrite (rtl_chain_loop_cut (rtl h) max_distance pre g c right Hok);
      [| | |lia|lia].
    + rewrite shift_0. reflexivity.
    + apply rtl_ok; [exact Hokc|].
      pose proof (height_chain_first c right). lia.
    + pose proof (height_chain_rest c right) as Hhr.
      rewrite Forall_forall in *. intros gc Hin.
      apply rtl_ok; [apply Hokr; exact Hin|].
      specialize (Hhr gc Hin). cbv beta in Hhr. lia.
  - intros Hok. rewrite (rtl_top_ok _ _ Hok). cbn [rtl_yields to_right].
    pose proof (ok_snarl _ _ Hok) as (_ & Hb & _ & Hrec).
    rewrite (snarl_yields_by_entry _ _ _ Hb). f_equal. f_equal. f_equal.
    apply imap_ext. intros i e Hi. simpl.
    rewrite Forall_forall in Hrec.
    destruct (Hrec e) as [_ Hoke];
      [apply list_elem_of_lookup; exists i; exact Hi|].
    rewrite (rtl_top_ok _ _ Hoke). reflexivity.
Qed.

Lemma chain_stops_snarl_does_not_witness :
  (zip_element_right_to_left_iterator
     (PList ([PStr "a"; PInt (-5); PStr "b"]
             ++ PInt 10 :: chain_items (Leaf (PStr "c")) [])) 7
   = zip_element_right_to_left_iterator
       (encode (Chain (Leaf (PStr "c")) [])) 7
   /\
   zip_element_right_to_left_iterator
     (PList [PStr "a"; PInt (-5); PStr "b"; PInt 10; PStr "c"]) 7
   = ([(PStr "c", 0)], Returned))
  /\
  zip_element_right_to_left_iterator
    (encode (Snarl [([2], Chain (Leaf (PStr "x")) []);
                    ([4; 2], Chain (Leaf (PStr "h")) [])] [1; 1; 9])) 8
  = ([(PStr "x", 1)], Returned).
Proof.
  destruct (chain_stops_snarl_does_not [PStr "a"; PInt (-5); PStr "b"] 10
    (Leaf (PStr "c")) []
    [([2], Chain (Leaf (PStr "x")) []); ([4; 2], Chain (Leaf (PStr "h")) [])]
    [1; 1; 9] 7) as [H1 _].
  destruct (chain_stops_snarl_does_not [PStr "a"; PInt (-5); PStr "b"] 10
    (Leaf (PStr "c")) []
    [([2], Chain (Leaf (PStr "x")) []); ([4; 2], Chain (Leaf (PStr "h")) [])]
    [1; 1; 9] 8) as [_ H2].
  split; [split|].
  - apply H1; [reflexivity | vm_compute; reflexivity].
  - change (PList [PStr "a"; PInt (-5); PStr "b"; PInt 10; PStr "c"])
      with (PList ([PStr "a"; PInt (-5); PStr "b"]
                   ++ PInt 10 :: chain_items (Leaf (PStr "c")) [])).
    rewrite H1; [reflexivity | reflexivity | vm_compute; reflexivity].
  - rewrite H2; reflexivity.
Defined.

(** ** What the left-to-right enumerator yields on a well-formed tree *)

Lemma py_range_evens (k : nat) :
  py_range 0 (Z.of_nat (S (2 * k))) 2
  = map (fun j => 2 * Z.of_nat j) (seq 0 (S k)).
Proof.
  unfold py_range. change (0 <? 2) with true. cbv iota.
  replace ((Z.of_nat (S (2 * k)) - 0 + 2 - 1) / 2) with (Z.of_nat (S k)).
  - rewrite Nat2Z.id. apply map_ext. intros j. lia.
  - replace (Z.of_nat (S (2 * k)) - 0 + 2 - 1) with (Z.of_nat (S k) * 2) by lia.
    rewrite Z.div_mul by lia. reflexivity.
Qed.

Lemma py_range_count (k : nat) :
  py_range 0 (Z.of_nat k) 1 = map Z.of_nat (seq 0 k).
Proof.
  unfold py_range. change (0 <? 1) with true. cbv iota.
  rewrite Z.div_1_r.
  replace (Z.to_nat (Z.of_nat k - 0 + 1 - 1)) with k by lia.
  apply map_ext. intros j. lia.
Qed.

Lemma for_gen_returned {X A S} (ys : list X) (step : X -> S -> body A S)
  (s : S) :
  for_gen (ys, Returned) step s = for_in ys step s.
Proof.
  unfold for_gen. cbn [yields ended fst snd].
  destruct (for_in ys step s) as [zs [s'|e]]; [|reflexivity].
  rewrite bind_next. simpl. rewrite app_nil_r. reflexivity.
Qed.

Lemma ltr_extend_returned element i found :
  ltr_extend element i (found, Returned) = (extend element i found, Next tt).
Proof.
  unfold ltr_extend. rewrite for_gen_returned.
  induction found as [|[s p] l IH]; [reflexivity|].
  cbn [for_in]. unfold yield at 1. rewrite bind_next, IH. reflexivity.
Qed.

Lemma chain_found_snoc first rest g c :
  chain_found first (rest ++ [(g, c)])
  = chain_found first rest ++ [enumerated c].
Proof. unfold chain_found. rewrite map_app. reflexivity. Qed.

Lemma chain_found_length first rest :
  length (chain_found first rest) = S (length rest).
Proof. unfold chain_found. simpl. rewrite length_map. reflexivity. Qed.

Lemma ltr_chain_loop enum first rest :
  enum (encode first) = (enumerated first, Returned) ->
  Forall (fun gc => enum (encode gc.2) = (enumerated gc.2, Returned)) rest ->
  forall suf,
  for_in (map (fun j => 2 * Z.of_nat j) (seq 0 (S (length rest))))
    (ltr_chain_step enum (PList (chain_items first rest ++ suf))) tt
  = (concat (imap (fun i found =>
       extend (PList (chain_items first rest ++ suf)) (2 * Z.of_nat i) found)
       (chain_found first rest)),
     Next tt).
Proof.
  induction rest as [|[g c] rest IH] using rev_ind; intros Hfirst Hrest suf.
  - cbn [length seq map for_in]. unfold ltr_chain_step.
    change (chain_items first [] ++ suf) with (encode first :: suf).
    change (2 * Z.of_nat 0) with 0.
    cbn [getitem]. rewrite index_list_cons_0.
    rewrite bind_lift_ok, Hfirst, ltr_extend_returned, bind_next.
    simpl. rewrite !app_nil_r. reflexivity.
  - apply Forall_app in Hrest as [Hrest Hc].
    apply Forall_cons in Hc as [Hc _]. simpl in Hc.
    rewrite length_app. cbn [length].
    replace (S (length rest + 1)) with (S (S (length rest))) by lia.
    rewrite (seq_S (S (length rest))), map_app, for_in_app.
    rewrite chain_items_snoc, <- (app_assoc (chain_items first rest)).
    rewrite (IH Hfirst Hrest).
    cbn [map for_in Nat.add].
    assert (Hstep : ltr_chain_step enum
              (PList (chain_items first rest ++ [PInt g; encode c] ++ suf))
              (2 * Z.of_nat (S (length rest))) tt
            = (extend
                 (PList (chain_items first rest ++ [PInt g; encode c] ++ suf))
                 (2 * Z.of_nat (S (length rest))) (enumerated c), Next tt)).
    { unfold ltr_chain_step. cbn [getitem].
      replace (index_list (chain_items first rest ++ [PInt g; encode c] ++ suf)
                 (2 * Z.of_nat (S (length rest))))
        with (Ok (A := pyval) (encode c)).
      - rewrite bind_lift_ok, Hc, ltr_extend_returned. reflexivity.
      - symmetry.
        replace (chain_items first rest ++ [PInt g; encode c] ++ suf)
          with ((chain_items first rest ++ [PInt g]) ++ encode c :: suf)
          by (rewrite <- app_assoc; reflexivity).
        apply index_list_at.
        unfold len. rewrite length_app, chain_items_length. simpl. lia. }
    rewrite bind_next. cbv beta. rewrite Hstep.
    rewrite bind_next. cbn [ret fst snd].
    rewrite chain_found_snoc, imap_app, concat_app, chain_found_length.
    simpl. rewrite Nat.add_0_r, !app_nil_r. reflexivity.
Qed.

Lemma ltr_snarl_loop enum entries :
  Forall (fun e => enum (encode e.2) = (enumerated e.2, Returned)) entries ->
  forall suf,
  for_in (map Z.of_nat (seq 0 (length entries)))
    (ltr_snarl_step enum (PTuple (map entry_item entries ++ suf))) tt
  = (concat (imap (fun i found =>
       extend (PTuple (map entry_item entries ++ suf)) (Z.of_nat i) found)
       (map (fun e => enumerated e.2) entries)),
     Next tt).
Proof.
  induction entries as [|e entries IH] using rev_ind; intros Henum suf;
    [reflexivity|].
  apply Forall_app in Henum as [Henum He].
  apply Forall_cons in He as [He _].
  rewrite length_app. cbn [length].
  replace (length entries + 1)%nat with (S (length entries)) by lia.
  rewrite seq_S, map_app, for_in_app.
  rewrite !map_app. cbn [map]. rewrite <- (app_assoc (map entry_item entries)).
  rewrite (IH Henum).
  cbn [for_in Nat.add app].
  assert (Hstep : ltr_snarl_step enum
            (PTuple (map entry_item entries ++ entry_item e :: suf))
            (Z.of_nat (length entries)) tt
          = (extend (PTuple (map entry_item entries ++ entry_item e :: suf))
               (Z.of_nat (length entries)) (enumerated e.2), Next tt)).
  { unfold ltr_snarl_step. cbn [getitem].
    rewrite (index_list_at _ (entry_item e))
      by (unfold len; rewrite length_map; reflexivity).
    cbn [res_bind]. rewrite getitem_entry_chain.
    rewrite bind_lift_ok, He, ltr_extend_returned. reflexivity. }
  rewrite bind_next. cbv beta. rewrite Hstep.
  rewrite bind_next. cbn [ret fst snd].
  rewrite imap_app, concat_app, length_map.
  simpl. rewrite Nat.add_0_r, !app_nil_r. reflexivity.
Qed.

Lemma ltr_ok t :
  ok t = true ->
  forall n, (height (encode t) < n)%nat ->
  ltr n (encode t) = (enumerated t, Returned).
Proof.
  induction t as [seed|first rest IHfirst IHrest|entries boundary IH]
    using ztree_ind'; intros Hok n Hn.
  - destruct n as [|n]; [lia|]. simpl in Hok.
    destruct seed; try discriminate Hok; reflexivity.
  - destruct n as [|n]; [lia|].
    pose proof (ok_chain _ _ Hok) as [[_ Hokf] Hokr].
    cbn [enumerated]. rewrite encode_chain. cbn [ltr].
    unfold len. rewrite chain_items_length, py_range_evens.
    rewrite <- (app_nil_r (chain_items first rest)) at 1.
    rewrite (ltr_chain_loop (ltr n) first rest).
    + rewrite app_nil_r. reflexivity.
    + apply IHfirst; [exact Hokf|].
      pose proof (height_chain_first first rest). lia.
    + pose proof (height_chain_rest first rest) as Hh.
      rewrite Forall_forall in *. intros gc Hin.
      apply IHrest; [exact Hin | apply Hokr; exact Hin|].
      specialize (Hh gc Hin). cbv beta in Hh. lia.
  - destruct n as [|n]; [lia|].
    pose proof (ok_snarl _ _ Hok) as (_ & _ & _ & Hrec).
    cbn [enumerated]. rewrite encode_snarl. cbn [ltr].
    replace (len (map entry_item entries ++ [PTuple (map PInt boundary)]) - 1)
      with (Z.of_nat (length entries))
      by (unfold len; rewrite length_app, length_map; simpl; lia).
    rewrite py_range_count.
    rewrite (ltr_snarl_loop (ltr n) entries); [reflexivity|].
    pose proof (height_snarl_entries entries boundary) as Hh.
    rewrite Forall_forall in *. intros e Hin.
    apply IH; [exact Hin | apply Hrec; exact Hin|].
    specialize (Hh e Hin). cbv beta in Hh. lia.
Qed.

Lemma ltr_top_ok t :
  ok t = true ->
  zip_element_left_to_right_iterator (encode t) = (enumerated t, Returned).
Proof. intros Hok. apply ltr_ok; [exact Hok | lia]. Qed.

(** ** The enumeration is exhaustive, ordered, and its paths lead to the seeds *)

Lemma map_fst_concat_imap {A B C} (f : nat -> list (A * B) -> list (A * C))
  (L : list (list (A * B))) :
  (forall i x, map fst (f i x) = map fst x) ->
  map fst (concat (imap f L)) = concat (map (map fst) L).
Proof.
  revert f. induction L as [|x L IH]; intros f Hf; [reflexivity|].
  simpl. rewrite map_app, Hf. f_equal. apply IH. intros i y. apply Hf.
Qed.

Lemma elem_of_concat_imap {A B} (f : nat -> A -> list B) (l : list A) (y : B) :
  y ∈ concat (imap f l) -> exists i x, l !! i = Some x /\ y ∈ f i x.
Proof.
  revert f. induction l as [|x l IH]; intros f Hy; simpl in Hy.
  - inversion Hy.
  - apply elem_of_app in Hy as [Hy|Hy].
    + exists O, x. split; [reflexivity | exact Hy].
    + apply IH in Hy as (i & x' & Hi & Hy). exists (S i), x'.
      split; assumption.
Qed.

Lemma extend_fst container i found :
  map fst (extend container i found) = map fst found.
Proof. unfold extend. rewrite map_map. reflexivity. Qed.

Lemma enumerated_leaves t : map fst (enumerated t) = leaves t.
Proof.
  induction t as [seed|first rest IHfirst IHrest|entries boundary IH]
    using ztree_ind'; [reflexivity| |].
  - cbn [enumerated leaves].
    rewrite map_fst_concat_imap by (intros; apply extend_fst).
    cbn [map concat]. rewrite IHfirst. f_equal. rewrite map_map. f_equal.
    apply map_ext_Forall. exact IHrest.
  - cbn [enumerated leaves].
    rewrite map_fst_concat_imap by (intros; apply extend_fst).
    rewrite map_map. f_equal. apply map_ext_Forall. exact IH.
Qed.

Lemma chain_items_lookup_even first rest i c :
  children first rest !! i = Some c ->
  chain_items first rest !! (2 * i)%nat = Some (encode c).
Proof.
  revert first i. induction rest as [|[g c'] rest IH]; intros first i Hi.
  - destruct i as [|i]; [|discriminate Hi]. injection Hi as ->. reflexivity.
  - destruct i as [|i].
    + injection Hi as ->. reflexivity.
    + replace (2 * S i)%nat with (S (S (2 * i))) by lia.
      apply (IH c' i). exact Hi.
Qed.

Lemma chain_items_lookup_odd first rest i g c :
  rest !! i = Some (g, c) ->
  chain_items first rest !! (S (2 * i))%nat = Some (PInt g).
Proof.
  revert first i. induction rest as [|[g' c'] rest IH]; intros first i Hi;
    [discriminate Hi|].
  destruct i as [|i].
  - injection Hi as -> ->. reflexivity.
  - replace (S (2 * S i))%nat with (S (S (S (2 * i)))) by lia.
    apply (IH c' i). exact Hi.
Qed.

Lemma Forall_children (P : ztree -> Prop) first rest :
  P first -> Forall (fun gc => P gc.2) rest -> Forall P (children first rest).
Proof.
  intros Hf Hr. constructor; [exact Hf|]. rewrite Forall_map. exact Hr.
Qed.

Lemma ok_children first rest :
  ok (Chain first rest) = true ->
  Forall (fun c => is_chain c = false /\ ok c = true) (children first rest).
Proof.
  intros Hok. apply ok_chain in Hok as [Hf Hr].
  apply Forall_children; [exact Hf|].
  eapply Forall_impl; [exact Hr|]. simpl. tauto.
Qed.

Lemma ok_seed_leaf t : ok t = true -> is_leaf t = true -> is_seed (encode t) = true.
Proof. destruct t; simpl; intros H1 H2; [exact H1 | discriminate | discriminate]. Qed.

Lemma enumerated_contains t :
  ok t = true ->
  Forall (fun sp => contains (encode t) sp.2 sp.1) (enumerated t).
Proof.
  induction t as [seed|first rest IHfirst IHrest|entries boundary IH]
    using ztree_ind'; intros Hok.
  - repeat constructor. exact Hok.
  - pose proof (Forall_children
        (fun c => ok c = true ->
           Forall (fun sp => contains (encode c) sp.2 sp.1) (enumerated c))
        first rest IHfirst IHrest) as IHc.
    pose proof (ok_children _ _ Hok) as Hokc.
    pose proof (proj1 (Forall_forall _ _) IHc) as IHc'.
    pose proof (proj1 (Forall_forall _ _) Hokc) as Hokc'.
    apply Forall_forall. intros [s p] Hin.
    cbn [enumerated] in Hin.
    apply elem_of_concat_imap in Hin as (i & found & Hi & Hin).
    replace (enumerated first :: map (fun gc => enumerated gc.2) rest)
      with (map enumerated (children first rest)) in Hi.
    { rewrite map_fmap, list_lookup_fmap in Hi.
      destruct (children first rest !! i) as [c|] eqn:Hc; [|discriminate Hi].
      injection Hi as <-.
      apply list_elem_of_In, in_map_iff in Hin as ([s' p'] & Heq & Hin).
      injection Heq as -> <-. simpl.
      assert (c ∈ children first rest) as Hcin
        by (apply list_elem_of_lookup; exists i; exact Hc).
      apply (contains_chain _ (2 * Z.of_nat i) (encode c)).
      - lia.
      - rewrite Z.even_mul. reflexivity.
      - cbn [getitem]. apply index_list_Z; [lia|].
        replace (Z.to_nat (2 * Z.of_nat i)) with (2 * i)%nat by lia.
        apply chain_items_lookup_even. exact Hc.
      - pose proof (IHc' c Hcin (proj2 (Hokc' c Hcin))) as Hall.
        rewrite Forall_forall in Hall.
        apply (Hall (s, p')). apply list_elem_of_In. exact Hin. }
    unfold children. rewrite map_cons, map_map. reflexivity.
  - pose proof (ok_snarl _ _ Hok) as (_ & _ & _ & Hrec).
    pose proof (proj1 (Forall_forall _ _) IH) as IH'.
    pose proof (proj1 (Forall_forall _ _) Hrec) as Hrec'.
    apply Forall_forall. intros [s p] Hin.
    cbn [enumerated] in Hin.
    apply elem_of_concat_imap in Hin as (i & found & Hi & Hin).
    rewrite map_fmap, list_lookup_fmap in Hi.
    destruct (entries !! i) as [e|] eqn:He; [|discriminate Hi].
    injection Hi as <-.
    apply list_elem_of_In, in_map_iff in Hin as ([s' p'] & Heq & Hin).
    injection Heq as -> <-. simpl.
    assert (e ∈ entries) as Hein
      by (apply list_elem_of_lookup; exists i; exact He).
    pose proof (lookup_lt_Some _ _ _ He) as Hlt.
    apply (contains_snarl _ (Z.of_nat i) (entry_item e) (encode e.2)).
    + unfold len. rewrite length_app, length_map. simpl. lia.
    + cbn [getitem]. rewrite index_list_app_l
        by (unfold len; rewrite length_map; lia).
      apply index_list_nat. rewrite map_fmap, list_lookup_fmap, He. reflexivity.
    + apply getitem_entry_chain.
    + pose proof (IH' e Hein (proj2 (Hrec' e Hein))) as Hall.
      rewrite Forall_forall in Hall.
      apply (Hall (s, p')). apply list_elem_of_In. exact Hin.
Qed.

(** C4 (left-to-right enumeration): on a well-formed tree the enumerator
    returns after yielding the seeds of the tree, each one once, from left to
    right; each comes with its containment path, which lists (container,
    index) from the innermost container to the tree itself, the index being
    the position of the sub-element in a chain's list and the number of the
    chain entry in a snarl. *)
Theorem left_to_right_enumeration (t : ztree) :
  ok t = true ->
  ended (zip_element_left_to_right_iterator (encode t)) = Returned /\
  map fst (yields (zip_element_left_to_right_iterator (encode t))) = leaves t /\
  yields (zip_element_left_to_right_iterator (encode t)) = enumerated t /\
  Forall (fun sp => contains (encode t) sp.2 sp.1)
    (yields (zip_element_left_to_right_iterator (encode t))).
Proof.
  intros Hok. rewrite (ltr_top_ok t Hok). cbn [ended yields fst snd].
  split; [reflexivity|]. split; [apply enumerated_leaves|].
  split; [reflexivity|]. apply enumerated_contains. exact Hok.
Qed.

Lemma left_to_right_enumeration_witness :
  ended (zip_element_left_to_right_iterator (encode example)) = Returned /\
  map fst (yields (zip_element_left_to_right_iterator (encode example)))
  = leaves example /\
  yields (zip_element_left_to_right_iterator (encode example))
  = enumerated example /\
  Forall (fun sp => contains (encode example) sp.2 sp.1)
    (yields (zip_element_left_to_right_iterator (encode example))).
Proof. apply (left_to_right_enumeration example). reflexivity. Defined.

(** ** The outward walker, one container at a time *)

Lemma bind_ret_r {A S} (m : body A S) : bind m ret = m.
Proof.
  destruct m as [ys [s|e]]; [|reflexivity].
  rewrite bind_next. simpl. rewrite app_nil_r. reflexivity.
Qed.

Lemma round_ext m D L L' found found' b :
  L = L' -> found = found' -> round m D L found b -> round m D L' found' b.
Proof. intros -> ->. tauto. Qed.

Lemma round_test m D L D' found ys :
  ys = within m (shift D found) -> D' = D + L ->
  round m D L found (ys, if m <? D' then Exit Returned else Next D').
Proof.
  intros -> ->. split; [reflexivity|]. simpl.
  destruct (Z.ltb_spec m (D + L)); [right; split; [reflexivity|assumption]|].
  left. reflexivity.
Qed.

(** Two rounds in a row. *)
Lemma round_bind m D L1 L2 found1 found2 b k :
  0 <= L2 -> far 0 found2 ->
  round m D L1 found1 b ->
  (forall D', D' = D + L1 -> round m D' L2 found2 (k D')) ->
  round m D (L1 + L2) (found1 ++ shift L1 found2) (bind b k).
Proof.
  intros HL2 Hfar [Hys Hfl] Hk. destruct b as [ys fl]. simpl in Hys, Hfl.
  subst ys. unfold round. rewrite shift_app, within_app, shift_shift.
  destruct Hfl as [->|[-> Hlt]].
  - rewrite bind_next. destruct (Hk _ eq_refl) as [Hys Hfl].
    split; simpl.
    + rewrite Hys. do 3 f_equal. lia.
    + rewrite Z.add_assoc. exact Hfl.
  - rewrite bind_exit. split; simpl.
    + rewrite (within_far m (0 + (L1 + D)) (shift (L1 + D) found2));
        [rewrite app_nil_r; reflexivity | lia | apply far_shift; exact Hfar].
    + right. split; [reflexivity | lia].
Qed.

Lemma reach_chain_step_ok m items k c g D :
  ok c = true -> is_chain c = false ->
  getitem (PList items) k = Ok (encode c) ->
  (let? x := getitem (PList items) (k + 1) in as_int x) = Ok g ->
  0 <= g -> 0 <= D ->
  reach_chain_step m (PList items) k D
  = (within m (shift (D + g) (to_right c)),
     if m <? D + g + cross c then Exit Returned
     else Next (D + g + cross c)).
Proof.
  intros Hok Hc Hget Hgap Hg HD. unfold reach_chain_step.
  pose proof (cross_nonneg c Hok) as Hcross.
  destruct (getitem (PList items) (k + 1)) as [x|x]; [|discriminate Hgap].
  cbn [res_bind] in *. destruct (as_int x) as [z|x']; [|discriminate Hgap].
  injection Hgap as ->. cbn [res_bind]. rewrite bind_lift_ok.
  destruct (Z.ltb_spec m (D + g)) as [Hfar|Hnear].
  - unfold return_. rewrite bind_exit.
    rewrite (within_far m (0 + (D + g)));
      [| lia | apply far_shift, to_right_far; exact Hok].
    destruct (Z.ltb_spec m (D + g + cross c)); [reflexivity | lia].
  - rewrite bind_ret, Hget, bind_lift_ok, (rtl_top_ok m c Hok).
    rewrite (for_gen_emit _ m (D + g)) by (intros [s d] u _; reflexivity).
    rewrite within_shift_rtl_yields by lia.
    rewrite bind_next. rewrite (cross_lookup c (D + g) Hok Hc), bind_ret.
    destruct (m <? D + g + cross c); simpl; rewrite app_nil_r; reflexivity.
Qed.

(** The loop of the outward walker over the sub-elements of a chain that
    precede a gap [g]. *)
Lemma reach_chain_loop m first pre :
  ok (Chain first pre) = true ->
  forall g suf D, 0 <= g -> 0 <= D ->
  round m D (g + span (right_parts first pre))
    (shift g (chain_right (right_parts first pre)))
    (for_in (py_range (len (chain_items first pre) - 1) (-1) (-2))
       (reach_chain_step m (PList (chain_items first pre ++ PInt g :: suf))) D).
Proof.
  induction pre as [|[g' c] pre IH] using rev_ind; intros Hok g suf D Hg HD.
  - apply ok_chain in Hok as [[Hc Hokf] _].
    change (len (chain_items first []) - 1) with 0.
    rewrite py_range_down2_cons by lia.
    rewrite py_range_down2_nil by lia. cbn [for_in].
    rewrite bind_ret_r.
    rewrite (reach_chain_step_ok m _ 0 first g D Hokf Hc);
      [|reflexivity|reflexivity|exact Hg|exact HD].
    apply round_test.
    + unfold right_parts. simpl. rewrite shift_0, shift_shift.
      do 2 f_equal. lia.
    + unfold right_parts, span. simpl. lia.
  - pose proof (ok_chain_prefix _ _ _ Hok) as Hok'.
    pose proof (span_right_parts_nonneg _ _ Hok') as Hspan'.
    apply ok_chain in Hok as [_ Hokrest].
    apply Forall_app in Hokrest as [_ Hokc].
    apply Forall_cons in Hokc as [(Hg' & Hcc & Hokc) _].
    simpl in Hg', Hcc, Hokc.
    pose proof (cross_nonneg c Hokc) as Hcross.
    rewrite right_parts_snoc, chain_right_snoc, span_snoc. cbn [fst snd].
    rewrite chain_items_snoc.
    replace (len (chain_items first pre ++ [PInt g'; encode c]) - 1)
      with (len (chain_items first pre) + 1)
      by (unfold len; rewrite length_app; simpl; lia).
    rewrite py_range_down2_cons by (unfold len; lia).
    replace (len (chain_items first pre) + 1 - 2)
      with (len (chain_items first pre) - 1) by lia.
    cbn [for_in].
    rewrite (reach_chain_step_ok m _ _ c g D Hokc Hcc);
      [| | |exact Hg|exact HD].
    + eapply round_ext;
        [| |apply (round_bind m D (g + cross c)
                     (g' + span (right_parts first pre))
                     (shift g (to_right c))
                     (shift g' (chain_right (right_parts first pre))))].
      * lia.
      * rewrite shift_app, !shift_shift. do 2 f_equal. lia.
      * lia.
      * apply (far_mono (0 + g')); [lia|]. apply far_shift.
        apply to_right_far in Hok'. exact Hok'.
      * apply round_test; [|lia].
        rewrite shift_shift. do 2 f_equal. lia.
      * intros D' ->.
        rewrite <- (app_assoc (chain_items first pre)). cbn [app].
        apply (IH Hok'); lia.
    + cbn [getitem].
      replace ((chain_items first pre ++ [PInt g'; encode c]) ++ PInt g :: suf)
        with ((chain_items first pre ++ [PInt g']) ++ encode c :: PInt g :: suf)
        by (rewrite <- !app_assoc; reflexivity).
      apply index_list_at. unfold len. rewrite length_app. simpl. lia.
    + cbn [getitem].
      replace ((chain_items first pre ++ [PInt g'; encode c]) ++ PInt g :: suf)
        with ((chain_items first pre ++ [PInt g'; encode c]) ++ PInt g :: suf)
        by reflexivity.
      rewrite (index_list_at _ (PInt g)); [reflexivity|].
      unfold len. rewrite !length_app. simpl. lia.
Qed.

Lemma getitem_entry_dist ds c (i : nat) d :
  ds !! i = Some d ->
  (let? x := getitem (entry_item (ds, c)) (Z.of_nat i) in as_int x) = Ok d.
Proof.
  intros H. unfold entry_item. cbn [getitem fst snd].
  pose proof (lookup_lt_Some _ _ _ H) as Hlt.
  rewrite index_list_app_l by (unfold len; rewrite length_map; lia).
  rewrite (index_list_nat _ i (PInt d)); [reflexivity|].
  rewrite map_fmap, list_lookup_fmap, H. reflexivity.
Qed.

Lemma reach_snarl_step_ok m items j D k e x :
  getitem (PTuple items) k = Ok (entry_item e) ->
  ok e.2 = true ->
  (let? ej := getitem (PTuple items) j in
   let? v := getitem ej (k + 1) in as_int v) = Ok x ->
  0 <= x -> 0 <= D ->
  reach_snarl_step m (PTuple items) j D k tt
  = (within m (shift D (shift x (to_right e.2))), Next tt).
Proof.
  intros Hget Hok Hx Hx0 HD. unfold reach_snarl_step.
  rewrite Hget. cbn [res_bind]. rewrite getitem_entry_chain, bind_lift_ok.
  rewrite (rtl_top_ok m e.2 Hok).
  rewrite (for_gen_emit _ m (x + D)).
  - rewrite within_shift_rtl_yields by lia. rewrite shift_shift.
    reflexivity.
  - intros [s d] u _.
    destruct (getitem (PTuple items) j) as [ej|y]; [|discriminate Hx].
    cbn [res_bind] in *.
    destruct (getitem ej (k + 1)) as [v|y]; [|discriminate Hx].
    cbn [res_bind] in *.
    destruct (as_int v) as [z|y]; [|discriminate Hx].
    injection Hx as ->. cbn [res_bind]. rewrite bind_lift_ok.
    cbn [fst snd]. rewrite Z.add_assoc. reflexivity.
Qed.

(** The loop of the outward walker over the chains of a snarl that precede
    the chain entry with distances [ds]. *)
Lemma reach_snarl_loop m ds c pre :
  Forall (fun e : list Z * ztree => ok e.2 = true) pre ->
  Forall (fun d => 0 <= d) ds ->
  (length pre < length ds)%nat ->
  forall suf j D, 0 <= D ->
  getitem (PTuple (map entry_item pre ++ suf)) j = Ok (entry_item (ds, c)) ->
  for_in (py_range (len pre - 1) (-1) (-1))
    (reach_snarl_step m (PTuple (map entry_item pre ++ suf)) j D) tt
  = (within m (shift D (snarl_right ds (map (fun e => to_right e.2) pre))),
     Next tt).
Proof.
  induction pre as [|e pre IH] using rev_ind;
    intros Hok Hds Hlen suf j D HD Hj.
  - rewrite py_range_down1_nil by (unfold len; simpl; lia). reflexivity.
  - apply Forall_app in Hok as [Hok He].
    apply Forall_cons in He as [He _].
    rewrite length_app in Hlen. simpl in Hlen.
    replace (len (pre ++ [e]) - 1) with (len pre)
      by (unfold len; rewrite length_app; simpl; lia).
    rewrite py_range_down1_cons by (unfold len; lia).
    cbn [for_in].
    destruct (lookup_lt_is_Some_2 ds (S (length pre))) as [x Hx]; [lia|].
    assert (Hx0 : 0 <= x).
    { rewrite Forall_forall in Hds. apply Hds.
      apply list_elem_of_lookup. exists (S (length pre)). exact Hx. }
    rewrite (reach_snarl_step_ok m _ j D _ e x); [| |exact He| |exact Hx0|exact HD].
    + rewrite bind_next.
      rewrite map_app in *. cbn [map] in *.
      rewrite <- (app_assoc (map entry_item pre)) in *.
      rewrite (IH Hok Hds ltac:(lia) _ j D HD Hj). cbn [fst snd].
      rewrite map_app. cbn [map].
      rewrite snarl_right_snoc, shift_app, within_app, length_map.
      rewrite (lookup_total_Some _ _ _ Hx). reflexivity.
    + cbn [getitem]. rewrite map_app. cbn [map].
      rewrite <- app_assoc. apply index_list_at.
      unfold len. rewrite length_map. reflexivity.
    + rewrite Hj. cbn [res_bind].
      replace (len pre + 1) with (Z.of_nat (S (length pre)))
        by (unfold len; lia).
      apply getitem_entry_dist. exact Hx.
Qed.

(** The round of the outward walker for a snarl and the chain entry [i]. *)
Lemma reach_level_snarl m entries boundary i e :
  ok (Snarl entries boundary) = true ->
  entries !! i = Some e ->
  forall D, 0 <= D ->
  round m D (e.1 !!! O)
    (snarl_right e.1 (map (fun e' => to_right e'.2) (take i entries)))
    (reach_level m (encode (Snarl entries boundary)) (PInt (Z.of_nat i)) D).
Proof.
  intros Hok He D HD.
  pose proof (ok_snarl _ _ Hok) as (_ & _ & Hshape & Hrec).
  destruct (Hshape i e He) as [Hlen Hds].
  pose proof (lookup_lt_Some _ _ _ He) as Hlt.
  destruct e as [ds c]. cbn [fst snd] in *.
  rewrite encode_snarl. unfold reach_level. cbn [is_tuple as_int].
  rewrite bind_lift_ok.
  assert (Hitems : map entry_item entries ++ [PTuple (map PInt boundary)]
    = map entry_item (take i entries)
      ++ entry_item (ds, c)
         :: (map entry_item (drop (S i) entries)
             ++ [PTuple (map PInt boundary)])).
  { rewrite <- (take_drop_middle entries i (ds, c) He) at 1.
    rewrite map_app. cbn [map]. rewrite <- app_assoc. reflexivity. }
  rewrite Hitems.
  replace (Z.of_nat i - 1) with (len (take i entries) - 1)
    by (unfold len; rewrite length_take; lia).
  assert (Hj : getitem
    (PTuple (map entry_item (take i entries)
             ++ entry_item (ds, c)
                :: (map entry_item (drop (S i) entries)
                    ++ [PTuple (map PInt boundary)]))) (Z.of_nat i)
    = Ok (entry_item (ds, c))).
  { cbn [getitem]. apply index_list_at.
    unfold len. rewrite length_map, length_take. lia. }
  rewrite (reach_snarl_loop m ds c (take i entries)); [| | | |exact HD|exact Hj].
  - rewrite bind_next. rewrite Hj. cbn [res_bind].
    destruct (lookup_lt_is_Some_2 ds O) as [x Hx]; [lia|].
    pose proof (getitem_entry_dist ds c O x Hx) as Hx'.
    change (Z.of_nat 0) with 0 in Hx'.
    destruct (getitem (entry_item (ds, c)) 0) as [v|y]; [|discriminate Hx'].
    cbn [res_bind] in *. destruct (as_int v) as [z|y]; [|discriminate Hx'].
    injection Hx' as ->. cbn [res_bind]. rewrite bind_lift_ok.
    rewrite (lookup_total_Some _ _ _ Hx).
    assert (Htest : (if m <? D + x then return_ else ret (D + x))
                    = (([] : list (pyval * Z)),
                       if m <? D + x then Exit Returned else Next (D + x))).
    { destruct (m <? D + x); reflexivity. }
    rewrite Htest. cbn [fst snd]. rewrite app_nil_r.
    apply round_test; reflexivity.
  - apply Forall_take. eapply Forall_impl; [exact Hrec|]. simpl. tauto.
  - exact Hds.
  - rewrite length_take. lia.
Qed.

Lemma before_chain first rest :
  before (Chain first rest) = chain_before (before_parts first rest).
Proof. reflexivity. Qed.

Lemma summary_before_parts first rest :
  map summary (before_parts first rest) = right_parts first rest.
Proof.
  unfold before_parts, right_parts. cbn [map]. rewrite map_map. reflexivity.
Qed.

Lemma before_parts_take first rest i :
  take (S i) (before_parts first rest) = before_parts first (take i rest).
Proof.
  unfold before_parts. cbn [take firstn]. rewrite firstn_map. reflexivity.
Qed.

Lemma chain_items_app first pre g c post :
  chain_items first (pre ++ (g, c) :: post)
  = chain_items first pre
    ++ PInt g :: encode c
       :: flat_map (fun gc => [PInt gc.1; encode gc.2]) post.
Proof. unfold chain_items. rewrite flat_map_app. reflexivity. Qed.

(** The round of the outward walker for a chain and its sub-element [i]. *)
Lemma reach_level_chain m first rest i p :
  ok (Chain first rest) = true ->
  before_parts first rest !! i = Some p ->
  forall D, 0 <= D ->
  round m D
    (span (map summary (take i (before_parts first rest))) + p.1.1)
    (shift p.1.1 (chain_right (map summary (take i (before_parts first rest)))))
    (reach_level m (encode (Chain first rest)) (PInt (2 * Z.of_nat i)) D).
Proof.
  intros Hok Hp D HD. rewrite encode_chain. unfold reach_level.
  cbn [is_tuple is_list as_int]. rewrite bind_ret, bind_lift_ok.
  destruct i as [|i].
  - injection Hp as <-. cbn [take firstn map fst snd].
    change (2 * Z.of_nat 0 - 2) with (-2).
    rewrite py_range_down2_nil by lia. cbn [for_in].
    split; [reflexivity|]. left. simpl. f_equal. unfold span. simpl. lia.
  - unfold before_parts in Hp. cbn [lookup list_lookup] in Hp.
    change (map (fun gc : Z * ztree =>
                   (gc.1, cross gc.2, (to_right gc.2, before gc.2))) rest !! i
            = Some p) in Hp.
    rewrite map_fmap, list_lookup_fmap in Hp.
    destruct (rest !! i) as [[g c]|] eqn:Hi; [|discriminate Hp].
    injection Hp as <-. cbn [fst snd].
    rewrite before_parts_take, summary_before_parts.
    pose proof (take_drop_middle rest i (g, c) Hi) as Hsplit.
    pose proof (lookup_lt_Some _ _ _ Hi) as Hlt.
    assert (Hokpre : ok (Chain first (take i rest)) = true).
    { rewrite <- Hsplit in Hok. apply ok_chain_prefix in Hok. exact Hok. }
    assert (Hg : 0 <= g).
    { apply ok_chain in Hok as [_ Hrest]. rewrite Forall_forall in Hrest.
      apply (Hrest (g, c)). apply list_elem_of_lookup. exists i. exact Hi. }
    replace (chain_items first rest)
      with (chain_items first (take i rest ++ (g, c) :: drop (S i) rest))
      by (rewrite Hsplit; reflexivity).
    rewrite chain_items_app.
    replace (2 * Z.of_nat (S i) - 2)
      with (len (chain_items first (take i rest)) - 1)
      by (unfold len; rewrite chain_items_length, length_take; lia).
    eapply round_ext; [| |apply (reach_chain_loop m first (take i rest) Hokpre
                                   g _ D Hg HD)].
    + lia.
    + reflexivity.
Qed.

Lemma snarl_right_far ds rs :
  Forall (fun d => 0 <= d) ds -> Forall (far 0) rs ->
  far 0 (snarl_right ds rs).
Proof.
  intros Hds. induction rs as [|r rs IH] using rev_ind; intros Hrs.
  - constructor.
  - apply Forall_app in Hrs as [Hrs Hr]. apply Forall_cons in Hr as [Hr _].
    rewrite snarl_right_snoc. apply far_app; [|apply IH; exact Hrs].
    apply (far_mono (0 + ds !!! S (length rs))).
    + pose proof (nonneg_lookup_total ds (S (length rs)) Hds). lia.
    + apply far_shift. exact Hr.
Qed.

Lemma chain_level_facts first rest i p :
  ok (Chain first rest) = true ->
  before_parts first rest !! i = Some p ->
  0 <= span (map summary (take i (before_parts first rest))) + p.1.1 /\
  far 0 (shift p.1.1
           (chain_right (map summary (take i (before_parts first rest))))).
Proof.
  intros Hok Hp. destruct i as [|i].
  - injection Hp as <-. cbn [take firstn map fst snd]. split.
    + unfold span. simpl. lia.
    + constructor.
  - unfold before_parts in Hp. cbn [lookup list_lookup] in Hp.
    change (map (fun gc : Z * ztree =>
                   (gc.1, cross gc.2, (to_right gc.2, before gc.2))) rest !! i
            = Some p) in Hp.
    rewrite map_fmap, list_lookup_fmap in Hp.
    destruct (rest !! i) as [[g c]|] eqn:Hi; [|discriminate Hp].
    injection Hp as <-. cbn [fst snd].
    rewrite before_parts_take, summary_before_parts.
    pose proof (take_drop_middle rest i (g, c) Hi) as Hsplit.
    assert (Hokpre : ok (Chain first (take i rest)) = true).
    { rewrite <- Hsplit in Hok. apply ok_chain_prefix in Hok. exact Hok. }
    assert (Hg : 0 <= g).
    { apply ok_chain in Hok as [_ Hrest]. rewrite Forall_forall in Hrest.
      apply (Hrest (g, c)). apply list_elem_of_lookup. exists i. exact Hi. }
    pose proof (span_right_parts_nonneg _ _ Hokpre). split; [lia|].
    apply (far_mono (0 + g)); [lia|]. apply far_shift.
    apply (to_right_far _ Hokpre).
Qed.

Lemma snarl_level_facts entries boundary i e :
  ok (Snarl entries boundary) = true ->
  entries !! i = Some e ->
  0 <= e.1 !!! O /\
  far 0 (snarl_right e.1 (map (fun e' => to_right e'.2) (take i entries))).
Proof.
  intros Hok He.
  pose proof (ok_snarl _ _ Hok) as (_ & _ & Hshape & Hrec).
  destruct (Hshape i e He) as [_ Hds]. split.
  - apply nonneg_lookup_total. exact Hds.
  - apply snarl_right_far; [exact Hds|]. rewrite Forall_map.
    apply Forall_take. eapply Forall_impl; [exact Hrec|].
    simpl. intros e' [_ He']. apply to_right_far. exact He'.
Qed.

(** ** The outward walker along a containment path *)

Lemma for_in_ext {I A S} (idxs : list I) (f g : I -> S -> body A S) (s : S) :
  (forall i s', i ∈ idxs -> f i s' = g i s') ->
  for_in idxs f s = for_in idxs g s.
Proof.
  revert s. induction idxs as [|i idxs IH]; intros s H; [reflexivity|].
  cbn [for_in]. rewrite (H i s) by left. apply bind_ext. intros s'.
  apply IH. intros j s'' Hj. apply H. right. exact Hj.
Qed.

Lemma py_range_pairs (k : nat) :
  py_range 0 (Z.of_nat (2 * k)) 2 = map (fun j => 2 * Z.of_nat j) (seq 0 k).
Proof.
  unfold py_range. change (0 <? 2) with true. cbv iota.
  replace ((Z.of_nat (2 * k) - 0 + 2 - 1) / 2) with (Z.of_nat k).
  - rewrite Nat2Z.id. apply map_ext. intros j. lia.
  - replace (Z.of_nat (2 * k) - 0 + 2 - 1) with (Z.of_nat k * 2 + 1) by lia.
    rewrite Z.div_add_l by lia. change (1 / 2) with 0. lia.
Qed.

(** One more container at the outer end of the path is one more round. *)
Lemma reach_from_snoc path element j m D :
  (exists k, length path = (2 * k)%nat) ->
  reach_from (path ++ [element; j]) m D
  = bind (reach_from path m D) (reach_level m element j).
Proof.
  intros [k Hk]. unfold reach_from, len.
  rewrite length_app, Hk. cbn [length].
  replace (2 * k + 2)%nat with (2 * S k)%nat by lia.
  rewrite !py_range_pairs, seq_S, map_app, for_in_app. cbn [map for_in Nat.add].
  rewrite (for_in_ext _ (reach_step (path ++ [element; j]) m)
             (reach_step path m)).
  - apply bind_ext. intros D'. rewrite bind_ret_r. unfold reach_step.
    rewrite (index_list_at path element [j]) by (unfold len; lia).
    rewrite bind_lift_ok.
    replace (path ++ [element; j]) with ((path ++ [element]) ++ [j])
      by (rewrite <- app_assoc; reflexivity).
    rewrite (index_list_at _ j [])
      by (unfold len; rewrite length_app; simpl; lia).
    rewrite bind_lift_ok. reflexivity.
  - intros i D' Hi. apply list_elem_of_In, in_map_iff in Hi as (n & <- & Hn).
    apply in_seq in Hn. unfold reach_step.
    rewrite !(index_list_app_l path) by (unfold len; lia). reflexivity.
Qed.

Lemma walks_out_widen m element j L outer sp o :
  0 <= L -> far 0 outer ->
  (forall D, 0 <= D -> round m D L outer (reach_level m element j D)) ->
  walks_out m sp o ->
  walks_out m (sp.1, sp.2 ++ [element; j]) (widen L outer o).
Proof.
  intros HL Hfar Hlevel (Hseed & [k Hk] & Hleft & Hwalk).
  unfold walks_out, widen. cbn [fst snd]. split; [exact Hseed|].
  split; [|split; [lia|]].
  - exists (S k). rewrite length_app, Hk. simpl. lia.
  - intros D HD. rewrite reach_from_snoc by (exists k; exact Hk).
    apply round_bind; [exact HL | exact Hfar | apply Hwalk; exact HD|].
    intros D' ->. apply Hlevel. lia.
Qed.

Lemma Forall2_concat_imap {A B A' B'} (R : A' -> B' -> Prop)
  (f : nat -> A -> list A') (g : nat -> B -> list B')
  (la : list A) (lb : list B) :
  length la = length lb ->
  (forall i a b, la !! i = Some a -> lb !! i = Some b ->
     Forall2 R (f i a) (g i b)) ->
  Forall2 R (concat (imap f la)) (concat (imap g lb)).
Proof.
  revert f g lb. induction la as [|a la IH]; intros f g [|b lb] Hlen H;
    try discriminate Hlen; [constructor|].
  simpl. apply Forall2_app.
  - apply (H O); reflexivity.
  - apply IH; [simpl in Hlen; lia|].
    intros i a' b' Ha Hb. apply (H (S i)); assumption.
Qed.

Lemma extend_widen m element i L outer found origins :
  0 <= L -> far 0 outer ->
  (forall D, 0 <= D -> round m D L outer (reach_level m element (PInt i) D)) ->
  Forall2 (walks_out m) found origins ->
  Forall2 (walks_out m) (extend element i found) (map (widen L outer) origins).
Proof.
  intros HL Hfar Hlevel H. unfold extend.
  induction H as [|sp o found origins Hsp _ IH]; [constructor|].
  cbn [map]. constructor; [|exact IH].
  apply (walks_out_widen m element (PInt i) L outer sp o HL Hfar Hlevel Hsp).
Qed.

(** On a well-formed tree, seed by seed, the outward walker started on the
    path that the enumerator yields finds what [before] says. *)
Lemma reach_ok m t :
  ok t = true -> Forall2 (walks_out m) (enumerated t) (before t).
Proof.
  induction t as [seed|first rest IHfirst IHrest|entries boundary IH]
    using ztree_ind'; intros Hok.
  - constructor; [|constructor].
    split; [reflexivity|]. split; [exists O; reflexivity|].
    split; [simpl; lia|]. intros D HD. split; [reflexivity|].
    left. simpl. f_equal. lia.
  - cbn [enumerated]. rewrite before_chain. unfold chain_before.
    pose proof (ok_chain _ _ Hok) as [[_ Hokf] Hokr].
    apply Forall2_concat_imap.
    { unfold before_parts. simpl. rewrite !length_map. reflexivity. }
    intros i found p Hfound Hp.
    destruct (chain_level_facts first rest i p Hok Hp) as [HL Hfar].
    pose proof (reach_level_chain m first rest i p Hok Hp) as Hlevel.
    assert (Hchild : exists c, ok c = true /\
              Forall2 (walks_out m) (enumerated c) (before c) /\
              found = enumerated c /\ p.2.2 = before c).
    { destruct i as [|i].
      - exists first. injection Hfound as <-. injection Hp as <-.
        split; [exact Hokf|]. split; [apply IHfirst; exact Hokf|].
        split; reflexivity.
      - unfold before_parts in Hp. cbn [lookup list_lookup] in Hp, Hfound.
        change (map (fun gc : Z * ztree =>
                 (gc.1, cross gc.2, (to_right gc.2, before gc.2))) rest !! i
                = Some p) in Hp.
        change (map (fun gc : Z * ztree => enumerated gc.2) rest !! i
                = Some found) in Hfound.
        rewrite map_fmap, list_lookup_fmap in Hp.
        rewrite map_fmap, list_lookup_fmap in Hfound.
        destruct (rest !! i) as [[g c]|] eqn:Hi; [|discriminate Hp].
        injection Hp as <-. injection Hfound as <-.
        assert ((g, c) ∈ rest) as Hin
          by (apply list_elem_of_lookup; exists i; exact Hi).
        rewrite Forall_forall in IHrest, Hokr.
        destruct (Hokr _ Hin) as (_ & _ & Hokc). simpl in Hokc.
        exists c. split; [exact Hokc|].
        split; [apply (IHrest _ Hin); exact Hokc|]. split; reflexivity. }
    destruct Hchild as (c & Hokc & IHc & -> & ->).
    apply extend_widen; assumption.
  - cbn [enumerated before]. unfold snarl_before.
    pose proof (ok_snarl _ _ Hok) as (_ & _ & _ & Hrec).
    apply Forall2_concat_imap.
    { rewrite !length_map. reflexivity. }
    intros i found e' Hfound He'.
    rewrite map_fmap, list_lookup_fmap in Hfound.
    rewrite map_fmap, list_lookup_fmap in He'.
    destruct (entries !! i) as [e|] eqn:He; [|discriminate He'].
    injection Hfound as <-. injection He' as <-. cbn [fst snd].
    destruct (snarl_level_facts entries boundary i e Hok He) as [HL Hfar].
    pose proof (reach_level_snarl m entries boundary i e Hok He) as Hlevel.
    assert (e ∈ entries) as Hin
      by (apply list_elem_of_lookup; exists i; exact He).
    rewrite Forall_forall in IH, Hrec.
    destruct (Hrec _ Hin) as [_ Hoke].
    replace (map (fun e'0 : list Z * (list (pyval * Z) * list origin) =>
                    e'0.2.1)
               (take i (map (fun e0 : list Z * ztree =>
                           (e0.1, (to_right e0.2, before e0.2))) entries)))
      with (map (fun e' : list Z * ztree => to_right e'.2) (take i entries)).
    + apply extend_widen; try assumption. apply (IH _ Hin). exact Hoke.
    + rewrite firstn_map, map_map. reflexivity.
Qed.

(** ** The all-pairs enumerator *)

Lemma reach_top m sp o :
  walks_out m sp o ->
  zip_reachable_iterator sp.2 m = (within m o.2, Returned).
Proof.
  intros (_ & _ & _ & Hwalk). unfold zip_reachable_iterator.
  destruct (Hwalk 0 ltac:(lia)) as [Hys Hfl].
  destruct (reach_from sp.2 m 0) as [ys fl]. simpl in Hys, Hfl.
  rewrite shift_0 in Hys. subst ys.
  destruct Hfl as [->|[-> _]]; reflexivity.
Qed.

Lemma pairs_inner (element : pyval) (l : list (pyval * Z)) :
  for_in l (fun '(element2, distance) (_ : unit) =>
              yield (element, element2, distance)) tt
  = (map (fun sd => (element, sd.1, sd.2)) l, Next tt).
Proof.
  induction l as [|[s d] l IH]; [reflexivity|].
  cbn [for_in]. unfold yield at 1. rewrite bind_next, IH. reflexivity.
Qed.

Lemma pairs_loop m found origins :
  Forall2 (walks_out m) found origins ->
  for_in found (fun '(element, contained_elements) (_ : unit) =>
    for_gen (zip_reachable_iterator contained_elements m)
      (fun '(element2, distance) (_ : unit) =>
         yield (element, element2, distance)) tt) tt
  = (flat_map (pairs_of m) origins, Next tt).
Proof.
  induction 1 as [|[s p] o found origins Hsp _ IH]; [reflexivity|].
  cbn [for_in flat_map].
  pose proof (reach_top m (s, p) o Hsp) as Htop. cbn [snd] in Htop.
  rewrite Htop, for_gen_returned, pairs_inner.
  rewrite bind_next, IH. cbn [fst snd].
  destruct Hsp as [Hs _]. simpl in Hs. subst s. reflexivity.
Qed.

Lemma filter_map_triple (m : Z) (s : pyval) (l : list (pyval * Z)) :
  filter (fun x : pyval * pyval * Z => x.2 <= m)
    (map (fun sd => (s, sd.1, sd.2)) l)
  = map (fun sd => (s, sd.1, sd.2)) (within m l).
Proof.
  unfold within. induction l as [|[s' d] l IH]; [reflexivity|].
  cbn [map]. destruct (decide (d <= m)) as [H|H].
  - rewrite (filter_cons_True _ (s, s', d)) by exact H.
    rewrite (filter_cons_True _ (s', d)) by exact H.
    cbn [map]. rewrite IH. reflexivity.
  - rewrite (filter_cons_False _ (s, s', d)) by exact H.
    rewrite (filter_cons_False _ (s', d)) by exact H. exact IH.
Qed.

Lemma within_true_distances m t :
  filter (fun x : pyval * pyval * Z => x.2 <= m) (true_distances t)
  = flat_map (pairs_of m) (before t).
Proof.
  unfold true_distances. induction (before t) as [|o l IH]; [reflexivity|].
  cbn [flat_map]. rewrite filter_app, IH, filter_map_triple. reflexivity.
Qed.

Lemma pairs_ok m t :
  ok t = true ->
  zip_element_pairs_iterator (encode t) m
  = (filter (fun x : pyval * pyval * Z => x.2 <= m) (true_distances t),
     Returned).
Proof.
  intros Hok. unfold zip_element_pairs_iterator.
  rewrite (ltr_top_ok t Hok), for_gen_returned.
  rewrite (pairs_loop m _ _ (reach_ok m t Hok)), within_true_distances.
  reflexivity.
Qed.

(** ** Every pair of positions is measured once *)

Lemma prefixes_app {A} (l1 l2 : list A) :
  prefixes (l1 ++ l2)
  = prefixes l1 ++ map (fun xr => (xr.1, xr.2 ++ reverse l1)) (prefixes l2).
Proof.
  unfold prefixes. rewrite imap_app. f_equal.
  - apply imap_ext. intros i x Hi. pose proof (lookup_lt_Some _ _ _ Hi).
    rewrite take_app_le by lia. reflexivity.
  - rewrite map_fmap, fmap_imap. apply imap_ext. intros i x Hi. simpl.
    rewrite take_app_add, reverse_app. reflexivity.
Qed.

Lemma ordered_pairs_prefixes {A} (l : list A) :
  ordered_pairs l
  = flat_map (fun xr => map (fun y => (xr.1, y)) xr.2) (prefixes l).
Proof.
  unfold ordered_pairs, prefixes. rewrite flat_map_concat_map.
  rewrite map_fmap, fmap_imap. reflexivity.
Qed.

Lemma chain_right_fst ps :
  map fst (chain_right ps) = concat (reverse (map (fun p => map fst p.2) ps)).
Proof.
  induction ps as [|p ps IH]; [reflexivity|].
  cbn [chain_right map]. rewrite map_app, shift_fst, IH, reverse_cons.
  rewrite concat_app. simpl. rewrite app_nil_r. reflexivity.
Qed.

Lemma snarl_right_fst boundary rs :
  map fst (snarl_right boundary rs) = concat (reverse (map (map fst) rs)).
Proof.
  induction rs as [|r rs IH] using rev_ind; [reflexivity|].
  rewrite snarl_right_snoc, map_app, shift_fst, IH.
  rewrite (map_app (map fst)). cbn [map]. rewrite reverse_snoc. reflexivity.
Qed.

Lemma reverse_concat {A} (L : list (list A)) :
  reverse (concat L) = concat (reverse (map reverse L)).
Proof.
  induction L as [|l L IH]; [reflexivity|].
  cbn [concat map]. rewrite reverse_app, IH, reverse_cons, concat_app.
  simpl. rewrite app_nil_r. reflexivity.
Qed.

Lemma to_right_leaves t : map fst (to_right t) = reverse (leaves t).
Proof.
  induction t as [seed|first rest IHfirst IHrest|entries boundary IH]
    using ztree_ind'; [reflexivity| |].
  - cbn [to_right leaves]. rewrite chain_right_fst.
    change (leaves first ++ concat (map (fun gc => leaves gc.2) rest))
      with (concat (leaves first :: map (fun gc => leaves gc.2) rest)).
    rewrite reverse_concat. cbn [map fst snd]. rewrite !map_map, IHfirst.
    do 3 f_equal. apply map_ext_Forall. exact IHrest.
  - cbn [to_right leaves]. rewrite snarl_right_fst, reverse_concat, !map_map.
    do 2 f_equal. apply map_ext_Forall. exact IH.
Qed.

Lemma chain_before_snoc ps p :
  chain_before (ps ++ [p])
  = chain_before ps
    ++ map (widen (span (map summary ps) + p.1.1)
                  (shift p.1.1 (chain_right (map summary ps)))) p.2.2.
Proof.
  unfold chain_before. rewrite imap_app, concat_app. f_equal.
  - f_equal. apply imap_ext. intros i q Hi.
    pose proof (lookup_lt_Some _ _ _ Hi) as H.
    rewrite take_app_le by (apply Nat.lt_le_incl; exact H). reflexivity.
  - simpl. rewrite Nat.add_0_r, take_app_length, app_nil_r. reflexivity.
Qed.

Lemma snarl_before_snoc es e :
  snarl_before (es ++ [e])
  = snarl_before es
    ++ map (widen (e.1 !!! O)
                  (snarl_right e.1 (map (fun e' => e'.2.1) es))) e.2.2.
Proof.
  unfold snarl_before. rewrite imap_app, concat_app. f_equal.
  - f_equal. apply imap_ext. intros i q Hi.
    pose proof (lookup_lt_Some _ _ _ Hi) as H.
    rewrite take_app_le by (apply Nat.lt_le_incl; exact H). reflexivity.
  - simpl. rewrite Nat.add_0_r, take_app_length, app_nil_r. reflexivity.
Qed.

Lemma before_chain_snoc first rest g c :
  before (Chain first (rest ++ [(g, c)]))
  = before (Chain first rest)
    ++ map (widen (span (right_parts first rest) + g)
                  (shift g (to_right (Chain first rest)))) (before c).
Proof.
  rewrite !before_chain.
  replace (before_parts first (rest ++ [(g, c)]))
    with (before_parts first rest ++ [(g, cross c, (to_right c, before c))])
    by (unfold before_parts; rewrite map_app; reflexivity).
  rewrite chain_before_snoc, summary_before_parts. reflexivity.
Qed.

Lemma before_snarl_snoc entries ds c boundary boundary' :
  before (Snarl (entries ++ [(ds, c)]) boundary)
  = before (Snarl entries boundary')
    ++ map (widen (ds !!! O)
                  (snarl_right ds (map (fun e => to_right e.2) entries)))
           (before c).
Proof.
  cbn [before]. rewrite map_app. cbn [map].
  rewrite snarl_before_snoc, map_map. reflexivity.
Qed.

Lemma leaves_chain_snoc first rest g c :
  leaves (Chain first (rest ++ [(g, c)]))
  = leaves (Chain first rest) ++ leaves c.
Proof.
  cbn [leaves]. rewrite map_app, concat_app. simpl.
  rewrite app_nil_r, app_assoc. reflexivity.
Qed.

Lemma leaves_snarl_snoc entries ds c boundary boundary' :
  leaves (Snarl (entries ++ [(ds, c)]) boundary)
  = leaves (Snarl entries boundary') ++ leaves c.
Proof.
  cbn [leaves]. rewrite map_app, concat_app. simpl.
  rewrite app_nil_r. reflexivity.
Qed.

Lemma shape_widen L outer (B : list origin) :
  map shape (map (widen L outer) B)
  = map (fun xr => (xr.1, xr.2 ++ map fst outer)) (map shape B).
Proof.
  rewrite !map_map. apply map_ext. intros [[s dl] prec].
  unfold shape, widen. cbn [fst snd]. rewrite map_app, shift_fst. reflexivity.
Qed.

(** [before] knows every seed, in order, and measures it against every
    earlier seed, the nearest first. *)
Lemma before_shape t : map shape (before t) = prefixes (leaves t).
Proof.
  induction t as [seed|first rest IHfirst IHrest|entries boundary IH]
    using ztree_ind'; [reflexivity| |].
  - induction rest as [|[g c] rest IHr] using rev_ind.
    + rewrite before_chain. unfold before_parts, chain_before. simpl.
      rewrite app_nil_r, shape_widen, IHfirst. simpl. rewrite app_nil_r.
      rewrite <- (map_id (prefixes (leaves first))) at 2.
      apply map_ext. intros [x r]. simpl. rewrite app_nil_r. reflexivity.
    + apply Forall_app in IHrest as [IHrest IHc].
      apply Forall_cons in IHc as [IHc _]. simpl in IHc.
      rewrite before_chain_snoc, leaves_chain_snoc, map_app, shape_widen.
      rewrite (IHr IHrest), IHc, prefixes_app.
      rewrite shift_fst, to_right_leaves. reflexivity.
  - induction entries as [|[ds c] entries IHe] using rev_ind;
      [reflexivity|].
    apply Forall_app in IH as [IH IHc].
    apply Forall_cons in IHc as [IHc _]. simpl in IHc.
    rewrite (before_snarl_snoc entries ds c boundary boundary).
    rewrite (leaves_snarl_snoc entries ds c boundary boundary).
    rewrite map_app, shape_widen, (IHe IH), IHc, prefixes_app.
    rewrite snarl_right_fst. cbn [leaves].
    rewrite reverse_concat, !map_map.
    rewrite (map_ext (fun x : list Z * ztree => map fst (to_right x.2))
               (fun x => reverse (leaves x.2)))
      by (intros e; apply to_right_leaves).
    reflexivity.
Qed.

Lemma true_distances_pairs t :
  map fst (true_distances t) = ordered_pairs (leaves t).
Proof.
  rewrite ordered_pairs_prefixes, <- before_shape.
  unfold true_distances. rewrite !flat_map_concat_map, concat_map, !map_map.
  f_equal. apply map_ext. intros [[s dl] prec]. unfold shape. cbn [fst snd].
  rewrite !map_map. reflexivity.
Qed.

(** C1 (completeness): on a well-formed tree the all-pairs enumerator returns
    after yielding exactly the entries of [true_distances] whose distance is
    within the bound.  [true_distances] measures every pair of seed positions
    once, by the distances the tree encodes: its seed pairs, in order, are
    the pairs (seed at a position, seed at an earlier position), so each pair
    of seeds within the bound is yielded once, in one orientation, the
    earlier seed second. *)
Theorem all_pairs_complete (t : ztree) (max_distance : Z) :
  ok t = true ->
  zip_element_pairs_iterator (encode t) max_distance
  = (filter (fun x : pyval * pyval * Z => x.2 <= max_distance)
       (true_distances t), Returned) /\
  map fst (true_distances t) = ordered_pairs (leaves t).
Proof.
  intros Hok. split; [apply pairs_ok; exact Hok | apply true_distances_pairs].
Qed.

Lemma all_pairs_complete_witness :
  zip_element_pairs_iterator (encode example) 15
  = (filter (fun x : pyval * pyval * Z => x.2 <= 15)
       (true_distances example), Returned) /\
  map fst (true_distances example) = ordered_pairs (leaves example).
Proof. apply (all_pairs_complete example 15). reflexivity. Defined.

Lemma ordered_pairs_distinct {A} (l : list A) :
  NoDup l -> Forall (fun xy => xy.1 <> xy.2) (ordered_pairs l).
Proof.
  intros Hnd. apply Forall_forall. intros [x y] Hin.
  unfold ordered_pairs in Hin.
  apply elem_of_concat_imap in Hin as (k & x' & Hk & Hin).
  apply list_elem_of_In, in_map_iff in Hin as (y' & Heq & Hy).
  injection Heq as -> ->. simpl. intros ->.
  apply list_elem_of_In in Hy. rewrite elem_of_reverse in Hy.
  apply list_elem_of_lookup in Hy as [j Hj].
  apply lookup_take_Some in Hj as [Hj Hlt].
  pose proof (NoDup_lookup l j k y Hnd Hj Hk). lia.
Qed.

(** C8 (no self pairs): on a well-formed tree, whatever the bound, the seed
    pairs that the all-pairs enumerator yields are, in order, among the pairs
    (seed at a position of the left-to-right order, seed at an earlier
    position): the two seeds of a triple are different leaves.  When no seed
    value occurs twice in the tree, the two seeds of a triple also differ as
    values. *)
Theorem no_seed_paired_with_itself (t : ztree) (max_distance : Z) :
  ok t = true ->
  map fst (yields (zip_element_pairs_iterator (encode t) max_distance))
    `sublist_of` ordered_pairs (leaves t) /\
  (NoDup (leaves t) ->
   Forall (fun x : pyval * pyval * Z => x.1.1 <> x.1.2)
     (yields (zip_element_pairs_iterator (encode t) max_distance))).
Proof.
  intros Hok. rewrite (pairs_ok max_distance t Hok). cbn [yields fst].
  assert (Hsub : map fst (filter (fun x : pyval * pyval * Z =>
                                    x.2 <= max_distance) (true_distances t))
                 `sublist_of` ordered_pairs (leaves t)).
  { rewrite <- true_distances_pairs, !map_fmap.
    apply fmap_sublist, sublist_filter. }
  split; [exact Hsub|].
  intros Hnd. pose proof (ordered_pairs_distinct _ Hnd) as Hall.
  rewrite Forall_forall in Hall. apply Forall_forall. intros x Hx.
  apply (Hall x.1). apply (sublist_subseteq _ _ Hsub).
  rewrite map_fmap. apply list_elem_of_fmap_2. exact Hx.
Qed.

Lemma no_seed_paired_with_itself_witness :
  map fst (yields (zip_element_pairs_iterator (encode example) 15))
    `sublist_of` ordered_pairs (leaves example) /\
  (NoDup (leaves example) ->
   Forall (fun x : pyval * pyval * Z => x.1.1 <> x.1.2)
     (yields (zip_element_pairs_iterator (encode example) 15))).
Proof. apply (no_seed_paired_with_itself example 15). reflexivity. Defined.

(** ** The recursion budget is never the reason to stop *)

Lemma fuelled_ret {A S} (s : S) : fuelled (@ret A S s).
Proof. exact I. Qed.

Lemma fuelled_lift {A S} (r : res S) : fuelled (@lift A S r).
Proof. destruct r; exact I. Qed.

Lemma fuelled_bind {A S T} (m : body A S) (k : S -> body A T) :
  fuelled m -> (forall s, fuelled (k s)) -> fuelled (bind m k).
Proof.
  unfold fuelled. intros Hm Hk. destruct m as [ys [s|e]]; simpl in *.
  - specialize (Hk s). destruct (k s) as [zs f]. exact Hk.
  - exact Hm.
Qed.

Lemma fuelled_for_in {I A S} (idxs : list I) (step : I -> S -> body A S)
  (s : S) :
  (forall i s', fuelled (step i s')) -> fuelled (for_in idxs step s).
Proof.
  intros H. revert s. induction idxs as [|i idxs IH]; intros s.
  - apply fuelled_ret.
  - cbn [for_in]. apply fuelled_bind; [apply H | exact IH].
Qed.

Lemma fuelled_for_gen {X A S} (g : gen X) (step : X -> S -> body A S) (s : S) :
  ended g <> OutOfFuel -> (forall x s', fuelled (step x s')) ->
  fuelled (for_gen g step s).
Proof.
  intros Hg H. unfold for_gen. apply fuelled_bind.
  - apply fuelled_for_in. exact H.
  - intros s'. destruct (ended g); [exact I | exact I | contradiction].
Qed.

Lemma fuelled_run {A S} (b : body A S) : fuelled b -> ended (run b) <> OutOfFuel.
Proof.
  unfold fuelled. destruct b as [ys [s|e]]; simpl; [discriminate|].
  destruct e; [discriminate | discriminate | contradiction].
Qed.

Lemma fuelled_yield_within m seed d : fuelled (yield_within m seed d).
Proof. unfold yield_within. destruct (d <=? m); exact I. Qed.

Lemma index_list_elem {A} (items : list A) (i : Z) (x : A) :
  index_list items i = Ok x -> x ∈ items.
Proof.
  unfold index_list.
  destruct ((if i <? 0 then i + len items else i) <? 0); [discriminate|].
  destruct (items !! Z.to_nat (if i <? 0 then i + len items else i))
    as [y|] eqn:E; [|discriminate].
  intros [= <-]. apply list_elem_of_lookup. eexists. exact E.
Qed.

Lemma string_to_chars_height s x : x ∈ string_to_chars s -> height x = O.
Proof.
  induction s as [|c s IH]; simpl; intros H.
  - inversion H.
  - apply elem_of_cons in H as [->|H]; [reflexivity | apply IH; exact H].
Qed.

(** Subscripting never increases the nesting depth, and it decreases it for
    a list or a tuple. *)
Lemma getitem_height v i x :
  getitem v i = Ok x ->
  (height x <= height v)%nat /\
  (is_seed v = false -> (height x < height v)%nat).
Proof.
  destruct v as [z|s|items|items]; simpl; intros H.
  - discriminate H.
  - apply index_list_elem, string_to_chars_height in H. rewrite H.
    split; [lia | discriminate].
  - apply index_list_elem, height_elem in H. split; intros; lia.
  - apply index_list_elem, height_elem in H. split; intros; lia.
Qed.

(** The right-to-left walker, given a budget above the nesting depth of its
    argument, never runs out of it, whatever the argument is. *)
Lemma rtl_fuelled m n element :
  (height element < n)%nat -> ended (rtl n element m) <> OutOfFuel.
Proof.
  revert element. induction n as [|n IH]; intros element Hn; [lia|].
  destruct element as [z|s|items|items]; cbn [rtl]; try discriminate.
  - apply fuelled_run, fuelled_for_in. intros i D. unfold rtl_chain_step.
    destruct (getitem (PList items) i) as [x|e] eqn:Hx; [|exact I].
    rewrite bind_lift_ok.
    apply getitem_height in Hx as [_ Hx]. specialize (Hx eq_refl).
    apply fuelled_bind; [|intros _; apply fuelled_bind; [|intros D1;
      apply fuelled_bind; [|intros D2]]].
    + apply fuelled_for_gen; [apply IH; lia|].
      intros [seed d] u. apply fuelled_yield_within.
    + destruct (is_tuple x); [apply fuelled_lift | apply fuelled_ret].
    + destruct (0 <? i); [apply fuelled_lift | apply fuelled_ret].
    + destruct (m <? D2); exact I.
  - apply fuelled_run, fuelled_for_in. intros i u. unfold rtl_snarl_step.
    destruct (getitem (PTuple items) i) as [x|e] eqn:Hx; [|exact I].
    cbn [res_bind].
    destruct (getitem x (-1)) as [y|e] eqn:Hy; [|exact I].
    rewrite bind_lift_ok.
    apply getitem_height in Hx as [_ Hx]. specialize (Hx eq_refl).
    apply getitem_height in Hy as [Hy _].
    apply fuelled_for_gen; [apply IH; lia|].
    intros [seed d] u'. apply fuelled_bind; [apply fuelled_lift|].
    intros d'. apply fuelled_yield_within.
Qed.

(** So does the left-to-right enumerator. *)
Lemma ltr_fuelled n element :
  (height element < n)%nat -> ended (ltr n element) <> OutOfFuel.
Proof.
  revert element. induction n as [|n IH]; intros element Hn; [lia|].
  assert (Hext : forall container i nested,
            ended nested <> OutOfFuel ->
            fuelled (ltr_extend container i nested)).
  { intros container i nested Hnested. unfold ltr_extend.
    apply fuelled_for_gen; [exact Hnested|]. intros [seed p] u. exact I. }
  destruct element as [z|s|items|items]; cbn [ltr]; try discriminate.
  - apply fuelled_run, fuelled_for_in. intros i u. unfold ltr_chain_step.
    destruct (getitem (PList items) i) as [x|e] eqn:Hx; [|exact I].
    rewrite bind_lift_ok.
    apply getitem_height in Hx as [_ Hx]. specialize (Hx eq_refl).
    apply Hext, IH. lia.
  - apply fuelled_run, fuelled_for_in. intros i u. unfold ltr_snarl_step.
    destruct (getitem (PTuple items) i) as [x|e] eqn:Hx; [|exact I].
    cbn [res_bind].
    destruct (getitem x (-1)) as [y|e] eqn:Hy; [|exact I].
    rewrite bind_lift_ok.
    apply getitem_height in Hx as [_ Hx]. specialize (Hx eq_refl).
    apply getitem_height in Hy as [Hy _].
    apply Hext, IH. lia.
Qed.

Lemma walkers_fuelled element m :
  ended (zip_element_right_to_left_iterator element m) <> OutOfFuel /\
  ended (zip_element_left_to_right_iterator element) <> OutOfFuel.
Proof.
  split; [apply rtl_fuelled | apply ltr_fuelled]; lia.
Qed.

(** With a negative bound, the chain and snarl branches of the right-to-left
    walker yield nothing on a well-formed tree. *)
Lemma negative_bound_elsewhere t m :
  ok t = true -> is_leaf t = false -> m < 0 ->
  zip_element_right_to_left_iterator (encode t) m = ([], Returned).
Proof.
  intros Hok Hleaf Hm. rewrite (rtl_top_ok m t Hok).
  pose proof (to_right_far t Hok) as Hfar.
  destruct t; [discriminate Hleaf| |]; cbn [rtl_yields];
    rewrite (within_far m 0) by (lia || exact Hfar); reflexivity.
Qed.

(** * Further properties of the walkers *)

(** ** The right-to-left walker on well-formed trees *)

Lemma within_all m l : Forall (fun sd => sd.2 <= m) l -> within m l = l.
Proof.
  unfold within. induction 1 as [|sd l Hsd _ IH]; [reflexivity|].
  rewrite filter_cons_True by exact Hsd. rewrite IH. reflexivity.
Qed.

Lemma within_within m m' l : m <= m' -> within m (within m' l) = within m l.
Proof.
  intros Hle. unfold within. induction l as [|[s d] l IH]; [reflexivity|].
  destruct (decide (d <= m')) as [H|H].
  - rewrite (filter_cons_True (fun sd => sd.2 <= m') (s, d)) by exact H.
    destruct (decide (d <= m)) as [H'|H'].
    + rewrite !(filter_cons_True (fun sd => sd.2 <= m) (s, d)) by exact H'.
      rewrite IH. reflexivity.
    + rewrite !(filter_cons_False (fun sd => sd.2 <= m) (s, d)) by exact H'.
      exact IH.
  - rewrite (filter_cons_False (fun sd => sd.2 <= m') (s, d)) by exact H.
    rewrite (filter_cons_False (fun sd => sd.2 <= m) (s, d)) by (simpl; lia).
    exact IH.
Qed.

Lemma within_fst_sublist m l : map fst (within m l) `sublist_of` map fst l.
Proof. rewrite !map_fmap. apply fmap_sublist, sublist_filter. Qed.

Lemma rtl_yields_within m t :
  is_leaf t = false \/ 0 <= m -> rtl_yields m t = within m (to_right t).
Proof.
  intros H. destruct t as [seed| |]; try reflexivity.
  destruct H as [H|H]; [discriminate H|].
  cbn [rtl_yields to_right]. unfold within.
  rewrite filter_cons_True by exact H. reflexivity.
Qed.

(** X1 (the right-to-left walker is exact): on a well-formed tree that is a
    chain or a snarl, or with a non-negative bound, the walker returns
    normally after yielding exactly the seeds whose distance to the right end
    of the tree is within the bound, each with that distance, from right to
    left. *)
Theorem right_to_left_exact (t : ztree) (max_distance : Z) :
  ok t = true ->
  is_leaf t = false \/ 0 <= max_distance ->
  zip_element_right_to_left_iterator (encode t) max_distance
  = (within max_distance (to_right t), Returned).
Proof.
  intros Hok H. rewrite (rtl_top_ok _ _ Hok), (rtl_yields_within _ _ H).
  reflexivity.
Qed.

Lemma right_to_left_exact_witness :
  zip_element_right_to_left_iterator (encode example) 15
  = (within 15 (to_right example), Returned).
Proof.
  apply (right_to_left_exact example 15); [reflexivity | right; lia].
Defined.

(** X2 (right-to-left order): on a well-formed tree the seeds that the
    right-to-left walker yields come in the reverse of the left-to-right
    order; when the bound is at least the distance of every seed to the right
    end, they are all the seeds that the left-to-right enumerator yields, in
    reverse. *)
Theorem right_to_left_reverses_left_to_right (t : ztree) (max_distance : Z) :
  ok t = true ->
  map fst (yields (zip_element_right_to_left_iterator (encode t) max_distance))
    `sublist_of` reverse (leaves t) /\
  (Forall (fun sd => sd.2 <= max_distance) (to_right t) ->
   map fst (yields (zip_element_right_to_left_iterator (encode t)
                      max_distance))
   = reverse (map fst (yields (zip_element_left_to_right_iterator
                                 (encode t))))).
Proof.
  intros Hok. rewrite (rtl_top_ok _ _ Hok), (ltr_top_ok _ Hok).
  cbn [yields fst]. rewrite enumerated_leaves, <- to_right_leaves. split.
  - destruct t as [seed| |]; cbn [rtl_yields];
      [reflexivity | apply within_fst_sublist | apply within_fst_sublist].
  - intros Hall. destruct t as [seed| |]; cbn [rtl_yields];
      [reflexivity | |]; rewrite (within_all _ _ Hall); reflexivity.
Qed.

Lemma right_to_left_reverses_left_to_right_witness :
  map fst (yields (zip_element_right_to_left_iterator (encode example) 1000))
  = reverse (map fst (yields (zip_element_left_to_right_iterator
                                (encode example)))).
Proof.
  apply (right_to_left_reverses_left_to_right example 1000); [reflexivity|].
  vm_compute. repeat (constructor; [discriminate|]). constructor.
Defined.

Lemma filter_filter_le (m m' : Z) (l : list (pyval * pyval * Z)) :
  m <= m' ->
  filter (fun x : pyval * pyval * Z => x.2 <= m)
    (filter (fun x : pyval * pyval * Z => x.2 <= m') l)
  = filter (fun x : pyval * pyval * Z => x.2 <= m) l.
Proof.
  intros Hle. induction l as [|x l IH]; [reflexivity|].
  destruct (decide (x.2 <= m')) as [H|H].
  - rewrite (filter_cons_True (fun x => x.2 <= m') x) by exact H.
    destruct (decide (x.2 <= m)) as [H'|H'].
    + rewrite !(filter_cons_True (fun x => x.2 <= m) x) by exact H'.
      rewrite IH. reflexivity.
    + rewrite !(filter_cons_False (fun x => x.2 <= m) x) by exact H'.
      exact IH.
  - rewrite (filter_cons_False (fun x => x.2 <= m') x) by exact H.
    rewrite (filter_cons_False (fun x => x.2 <= m) x) by lia.
    exact IH.
Qed.

(** X3 (narrowing the bound): on a well-formed tree, what a walker yields
    with a bound is what it yields with any larger bound, filtered by the
    smaller one; this holds for the right-to-left walker on a chain or a
    snarl and for the all-pairs enumerator. *)
Theorem smaller_bound_filters (t : ztree) (m m' : Z) :
  ok t = true -> m <= m' ->
  (is_leaf t = false ->
   within m (yields (zip_element_right_to_left_iterator (encode t) m'))
   = yields (zip_element_right_to_left_iterator (encode t) m)) /\
  filter (fun x : pyval * pyval * Z => x.2 <= m)
    (yields (zip_element_pairs_iterator (encode t) m'))
  = yields (zip_element_pairs_iterator (encode t) m).
Proof.
  intros Hok Hle. split.
  - intros Hleaf. rewrite !(rtl_top_ok _ _ Hok).
    rewrite !rtl_yields_within by (left; exact Hleaf).
    cbn [yields fst]. apply within_within. exact Hle.
  - rewrite !(pairs_ok _ _ Hok). cbn [yields fst].
    apply filter_filter_le. exact Hle.
Qed.

Lemma smaller_bound_filters_witness :
  (is_leaf example = false ->
   within 7 (yields (zip_element_right_to_left_iterator (encode example) 15))
   = yields (zip_element_right_to_left_iterator (encode example) 7)) /\
  filter (fun x : pyval * pyval * Z => x.2 <= 7)
    (yields (zip_element_pairs_iterator (encode example) 15))
  = yields (zip_element_pairs_iterator (encode example) 7).
Proof. apply (smaller_bound_filters example 7 15); [reflexivity | lia]. Defined.

(** ** Distances are never negative *)

Lemma before_parts_lookup first rest i p :
  before_parts first rest !! i = Some p ->
  exists c, children first rest !! i = Some c /\ p.2.2 = before c.
Proof.
  intros Hp. destruct i as [|i].
  - injection Hp as <-. exists first. split; reflexivity.
  - unfold before_parts in Hp. cbn [lookup list_lookup] in Hp.
    change (map (fun gc : Z * ztree =>
                   (gc.1, cross gc.2, (to_right gc.2, before gc.2))) rest !! i
            = Some p) in Hp.
    rewrite map_fmap, list_lookup_fmap in Hp.
    destruct (rest !! i) as [[g c]|] eqn:Hi; [|discriminate Hp].
    injection Hp as <-. exists c. split; [|reflexivity].
    unfold children. cbn [lookup list_lookup].
    change (map snd rest !! i = Some c).
    rewrite map_fmap, list_lookup_fmap, Hi. reflexivity.
Qed.

Lemma snarl_outer_take (entries : list (list Z * ztree)) (i : nat) :
  map (fun e' : list Z * (list (pyval * Z) * list origin) => e'.2.1)
    (take i (map (fun e : list Z * ztree =>
                    (e.1, (to_right e.2, before e.2))) entries))
  = map (fun e : list Z * ztree => to_right e.2) (take i entries).
Proof. rewrite firstn_map, map_map. reflexivity. Qed.

Lemma widen_far L outer (o : origin) :
  0 <= L -> far 0 outer -> 0 <= o.1.2 /\ far 0 o.2 ->
  0 <= (widen L outer o).1.2 /\ far 0 (widen L outer o).2.
Proof.
  intros HL Hfar [Hleft Hprec]. unfold widen. cbn [fst snd].
  split; [lia|]. apply far_app; [exact Hprec|].
  apply (far_mono (0 + o.1.2)); [lia|]. apply far_shift. exact Hfar.
Qed.

(** On a well-formed tree no seed is at a negative distance from the left
    end or from a seed before it. *)
Lemma before_far t :
  ok t = true -> Forall (fun o : origin => 0 <= o.1.2 /\ far 0 o.2) (before t).
Proof.
  induction t as [seed|first rest IHfirst IHrest|entries boundary IH]
    using ztree_ind'; intros Hok.
  - repeat constructor. simpl. lia.
  - pose proof (Forall_children
        (fun c => ok c = true ->
           Forall (fun o : origin => 0 <= o.1.2 /\ far 0 o.2) (before c))
        first rest IHfirst IHrest) as IHc.
    pose proof (ok_children _ _ Hok) as Hokc.
    pose proof (proj1 (Forall_forall _ _) IHc) as IHc'.
    pose proof (proj1 (Forall_forall _ _) Hokc) as Hokc'.
    apply Forall_forall. intros o Hin.
    rewrite before_chain in Hin. unfold chain_before in Hin.
    apply elem_of_concat_imap in Hin as (i & p & Hp & Hin).
    destruct (chain_level_facts first rest i p Hok Hp) as [HL Hfar].
    destruct (before_parts_lookup first rest i p Hp) as (c & Hc & Hbc).
    rewrite Hbc in Hin.
    apply list_elem_of_In, in_map_iff in Hin as (o' & <- & Hin).
    assert (c ∈ children first rest) as Hcin
      by (apply list_elem_of_lookup; exists i; exact Hc).
    pose proof (IHc' c Hcin (proj2 (Hokc' c Hcin))) as Hall.
    rewrite Forall_forall in Hall.
    apply widen_far; [exact HL | exact Hfar|].
    apply Hall. apply list_elem_of_In. exact Hin.
  - pose proof (ok_snarl _ _ Hok) as (_ & _ & _ & Hrec).
    pose proof (proj1 (Forall_forall _ _) IH) as IH'.
    pose proof (proj1 (Forall_forall _ _) Hrec) as Hrec'.
    apply Forall_forall. intros o Hin.
    cbn [before] in Hin. unfold snarl_before in Hin.
    apply elem_of_concat_imap in Hin as (i & e' & He' & Hin).
    rewrite map_fmap, list_lookup_fmap in He'.
    destruct (entries !! i) as [e|] eqn:He; [|discriminate He'].
    injection He' as <-. cbn [fst snd] in Hin.
    destruct (snarl_level_facts entries boundary i e Hok He) as [HL Hfar].
    rewrite snarl_outer_take in Hin.
    apply list_elem_of_In, in_map_iff in Hin as (o' & <- & Hin).
    assert (e ∈ entries) as Hein
      by (apply list_elem_of_lookup; exists i; exact He).
    pose proof (IH' e Hein (proj2 (Hrec' e Hein))) as Hall.
    rewrite Forall_forall in Hall.
    apply widen_far; [exact HL | exact Hfar|].
    apply Hall. apply list_elem_of_In. exact Hin.
Qed.

Lemma true_distances_nonneg t :
  ok t = true ->
  Forall (fun x : pyval * pyval * Z => 0 <= x.2) (true_distances t).
Proof.
  intros Hok. pose proof (before_far t Hok) as Hfar.
  rewrite Forall_forall in Hfar. apply Forall_forall. intros x Hx.
  unfold true_distances in Hx.
  apply list_elem_of_In, in_flat_map in Hx as (o & Ho & Hx).
  apply in_map_iff in Hx as (sd & <- & Hsd). cbn [snd].
  destruct (Hfar o (proj2 (list_elem_of_In _ _) Ho)) as [_ Hprec].
  unfold far in Hprec. rewrite Forall_forall in Hprec.
  apply Hprec. apply list_elem_of_In. exact Hsd.
Qed.

(** X4 (no negative distance): on a well-formed tree no walker yields a
    negative distance: not the right-to-left walker, not the all-pairs
    enumerator. *)
Theorem distances_are_not_negative (t : ztree) (max_distance : Z) :
  ok t = true ->
  Forall (fun sd => 0 <= sd.2)
    (yields (zip_element_right_to_left_iterator (encode t) max_distance)) /\
  Forall (fun x : pyval * pyval * Z => 0 <= x.2)
    (yields (zip_element_pairs_iterator (encode t) max_distance)).
Proof.
  intros Hok. split.
  - rewrite (rtl_top_ok _ _ Hok). cbn [yields fst].
    pose proof (to_right_far t Hok) as Hfar.
    destruct t as [seed| |]; cbn [rtl_yields];
      [repeat constructor; simpl; lia | |];
      apply (far_within 0 max_distance); exact Hfar.
  - rewrite (pairs_ok _ _ Hok). cbn [yields fst].
    pose proof (true_distances_nonneg t Hok) as Hall.
    rewrite Forall_forall in Hall. apply Forall_forall. intros x Hx.
    apply list_elem_of_filter in Hx as [_ Hx]. apply Hall. exact Hx.
Qed.

Lemma distances_are_not_negative_witness :
  Forall (fun sd => 0 <= sd.2)
    (yields (zip_element_right_to_left_iterator (encode example) 15)) /\
  Forall (fun x : pyval * pyval * Z => 0 <= x.2)
    (yields (zip_element_pairs_iterator (encode example) 15)).
Proof. apply (distances_are_not_negative example 15). reflexivity. Defined.

(** X5 (negative bound): with a negative bound, on a well-formed tree, the
    all-pairs enumerator yields nothing, and so does the right-to-left walker
    on a chain or a snarl; both return normally. *)
Theorem negative_bound_yields_nothing (t : ztree) (max_distance : Z) :
  ok t = true -> max_distance < 0 ->
  zip_element_pairs_iterator (encode t) max_distance = ([], Returned) /\
  (is_leaf t = false ->
   zip_element_right_to_left_iterator (encode t) max_distance
   = ([], Returned)).
Proof.
  intros Hok Hm. split.
  - rewrite (pairs_ok _ _ Hok). f_equal.
    pose proof (true_distances_nonneg t Hok) as Hall.
    induction Hall as [|x l Hx _ IH]; [reflexivity|].
    rewrite filter_cons_False by lia. exact IH.
  - intros Hleaf. apply negative_bound_elsewhere; assumption.
Qed.

Lemma negative_bound_yields_nothing_witness :
  zip_element_pairs_iterator (encode example) (-1) = ([], Returned) /\
  (is_leaf example = false ->
   zip_element_right_to_left_iterator (encode example) (-1) = ([], Returned)).
Proof. apply (negative_bound_yields_nothing example (-1)); [reflexivity | lia]. Defined.

(** ** How many pairs, and which seeds a seed reaches *)

Lemma ordered_pairs_snoc {A} (l : list A) (x : A) :
  ordered_pairs (l ++ [x])
  = ordered_pairs l ++ map (fun y => (x, y)) (reverse l).
Proof.
  rewrite !ordered_pairs_prefixes, prefixes_app, flat_map_app.
  f_equal. simpl. rewrite app_nil_r. reflexivity.
Qed.

Lemma ordered_pairs_length {A} (l : list A) :
  (2 * length (ordered_pairs l) = length l * (length l - 1))%nat.
Proof.
  induction l as [|x l IH] using rev_ind; [reflexivity|].
  rewrite ordered_pairs_snoc, !length_app, length_map, length_reverse.
  simpl. nia.
Qed.

(** X6 (number of pairs): on a well-formed tree with [n] seeds the all-pairs
    enumerator yields at most [n (n - 1) / 2] triples, and exactly that many
    when the bound is at least every distance between two seeds. *)
Theorem number_of_pairs (t : ztree) (max_distance : Z) :
  ok t = true ->
  (2 * length (yields (zip_element_pairs_iterator (encode t) max_distance))
   <= length (leaves t) * (length (leaves t) - 1))%nat /\
  (Forall (fun x : pyval * pyval * Z => x.2 <= max_distance)
     (true_distances t) ->
   (2 * length (yields (zip_element_pairs_iterator (encode t) max_distance))
    = length (leaves t) * (length (leaves t) - 1))%nat).
Proof.
  intros Hok. rewrite (pairs_ok _ _ Hok). cbn [yields fst].
  pose proof (ordered_pairs_length (leaves t)) as Hlen.
  rewrite <- true_distances_pairs, length_map in Hlen. split.
  - pose proof (length_filter (fun x : pyval * pyval * Z => x.2 <= max_distance)
                  (true_distances t)). lia.
  - intros Hall.
    replace (filter (fun x : pyval * pyval * Z => x.2 <= max_distance)
               (true_distances t)) with (true_distances t); [exact Hlen|].
    clear Hlen. induction Hall as [|x l Hx _ IH]; [reflexivity|].
    rewrite filter_cons_True by exact Hx. rewrite <- IH. reflexivity.
Qed.

Lemma number_of_pairs_witness :
  (2 * length (yields (zip_element_pairs_iterator (encode example) 15))
   <= length (leaves example) * (length (leaves example) - 1))%nat.
Proof. apply (number_of_pairs example 15). reflexivity. Defined.

(** X7 (what a seed reaches): on a well-formed tree, the outward walker
    started on the containment path of the seed that the left-to-right
    enumerator yields at position [k] returns normally, and the seeds it
    yields are among the [k] seeds enumerated before, in right-to-left order
    (the reverse of the order of enumeration, which need not be the order of
    the distances); so it yields at most [k] seeds, and none for the leftmost
    seed. *)
Theorem reached_seeds_precede (t : ztree) (max_distance : Z) (k : nat)
  (seed : pyval) (path : list pyval) :
  ok t = true ->
  yields (zip_element_left_to_right_iterator (encode t)) !! k
  = Some (seed, path) ->
  ended (zip_reachable_iterator path max_distance) = Returned /\
  map fst (yields (zip_reachable_iterator path max_distance))
    `sublist_of` reverse (take k (leaves t)) /\
  (length (yields (zip_reachable_iterator path max_distance)) <= k)%nat.
Proof.
  intros Hok Hk. rewrite (ltr_top_ok _ Hok) in Hk. cbn [yields fst] in Hk.
  destruct (Forall2_lookup_l _ _ _ _ _ (reach_ok max_distance t Hok) Hk)
    as (o & Ho & Hwalk).
  pose proof (reach_top _ _ _ Hwalk) as Htop. cbn [snd] in Htop.
  rewrite Htop. cbn [ended yields fst snd].
  assert (Hshape : map fst o.2 = reverse (take k (leaves t))).
  { pose proof (before_shape t) as Hs.
    assert (Hl : map shape (before t) !! k = Some (shape o))
      by (rewrite map_fmap, list_lookup_fmap, Ho; reflexivity).
    rewrite Hs in Hl. unfold prefixes in Hl. rewrite list_lookup_imap in Hl.
    destruct (leaves t !! k) as [x|]; [|discriminate Hl].
    injection Hl as _ Hl. symmetry. exact Hl. }
  assert (Hsub : map fst (within max_distance o.2)
                 `sublist_of` reverse (take k (leaves t))).
  { rewrite <- Hshape. apply within_fst_sublist. }
  split; [reflexivity|]. split; [exact Hsub|].
  apply sublist_length in Hsub.
  rewrite length_map, length_reverse, length_take in Hsub. lia.
Qed.

Lemma reached_seeds_precede_witness :
  let snarl :=
    PTuple [PTuple [PInt 2;
                    PList [PStr "e"; PInt 4;
                           PTuple [PTuple [PInt 2; PList [PStr "f"]];
                                   PTuple [PInt 3; PInt 0]];
                           PInt 6; PStr "g"]];
            PTuple [PInt 4; PInt 2; PList [PStr "h"]];
            PTuple [PInt 1; PInt 2; PInt 1]] in
  let path :=
    [PList [PStr "h"]; PInt 0; snarl; PInt 1; encode example; PInt 8] in
  yields (zip_element_left_to_right_iterator (encode example)) !! 7%nat
  = Some (PStr "h", path) /\
  yields (zip_reachable_iterator path 15)
  = [(PStr "g", 2); (PStr "f", 8); (PStr "e", 15); (PStr "d", 7);
     (PStr "c", 11)] /\
  reverse (take 7 (leaves example))
  = [PStr "g"; PStr "f"; PStr "e"; PStr "d"; PStr "c"; PStr "b"; PStr "a"] /\
  (ended (zip_reachable_iterator path 15) = Returned /\
   map fst (yields (zip_reachable_iterator path 15))
     `sublist_of` reverse (take 7 (leaves example)) /\
   (length (yields (zip_reachable_iterator path 15)) <= 7)%nat).
Proof.
  cbv zeta. split; [reflexivity|]. split; [reflexivity|].
  split; [reflexivity|].
  apply (reached_seeds_precede example 15 7 (PStr "h")); reflexivity.
Defined.

(** X8 (a seed appended to a chain): on a well-formed chain that ends with a
    gap [g] and a seed, the all-pairs enumerator yields what it yields on the
    chain without them, and then pairs the new seed with what the
    right-to-left walker yields on that shorter chain, each distance
    increased by [g], as far as the bound allows. *)
Theorem appended_seed_pairs (first : ztree) (rest : list (Z * ztree)) (g : Z)
  (seed : pyval) (max_distance : Z) :
  ok (Chain first (rest ++ [(g, Leaf seed)])) = true ->
  yields (zip_element_pairs_iterator
            (encode (Chain first (rest ++ [(g, Leaf seed)]))) max_distance)
  = yields (zip_element_pairs_iterator (encode (Chain first rest))
              max_distance)
    ++ map (fun sd => (seed, sd.1, sd.2))
         (within max_distance
            (shift g (yields (zip_element_right_to_left_iterator
                                (encode (Chain first rest)) max_distance)))).
Proof.
  intros Hok. pose proof (ok_chain_prefix _ _ _ Hok) as Hok'.
  assert (Hg : 0 <= g).
  { apply ok_chain in Hok as [_ Hrest].
    apply Forall_app in Hrest as [_ Hlast].
    apply Forall_cons in Hlast as [(Hg & _) _]. exact Hg. }
  rewrite (pairs_ok _ _ Hok), (pairs_ok _ _ Hok'), (rtl_top_ok _ _ Hok').
  cbn [yields fst rtl_yields]. rewrite !within_true_distances.
  rewrite before_chain_snoc, flat_map_app. f_equal.
  cbn [before map flat_map]. unfold widen, pairs_of. cbn [fst snd app].
  rewrite app_nil_r, shift_0, within_shift_within by exact Hg. reflexivity.
Qed.

Lemma appended_seed_pairs_witness :
  yields (zip_element_pairs_iterator
            (encode (Chain (Leaf (PStr "a"))
                       ([(3, Leaf (PStr "b"))] ++ [(5, Leaf (PStr "c"))]))) 6)
  = yields (zip_element_pairs_iterator
              (encode (Chain (Leaf (PStr "a")) [(3, Leaf (PStr "b"))])) 6)
    ++ map (fun sd => (PStr "c", sd.1, sd.2))
         (within 6
            (shift 5 (yields (zip_element_right_to_left_iterator
                                (encode (Chain (Leaf (PStr "a"))
                                           [(3, Leaf (PStr "b"))])) 6)))).
Proof.
  apply (appended_seed_pairs (Leaf (PStr "a")) [(3, Leaf (PStr "b"))] 5
           (PStr "c") 6). reflexivity.
Defined.

(** ** What the walkers yield on any input *)

Lemma all_yields_yield_within_seed (P : pyval * Z -> Prop) m seed d :
  P (seed, d) -> all_yields P (yield_within m seed d).
Proof.
  intros H. unfold yield_within. destruct (d <=? m); repeat constructor.
  exact H.
Qed.

Lemma rtl_seeds n element m :
  Forall (fun sd => is_seed sd.1 = true) (yields (rtl n element m)).
Proof.
  revert element. induction n as [|n IH]; intros element; [constructor|].
  destruct element as [z|s|items|items]; cbn [rtl];
    [repeat constructor | repeat constructor | |].
  - apply all_yields_run, all_yields_for_in. intros i D _.
    unfold rtl_chain_step. apply all_yields_bind; [apply all_yields_lift|].
    intros nested. apply all_yields_bind.
    + apply all_yields_for_gen. intros [seed d] u Hin.
      apply all_yields_yield_within_seed.
      specialize (IH nested). rewrite Forall_forall in IH.
      apply (IH _ Hin).
    + intros _. apply all_yields_bind.
      * destruct (is_tuple nested);
          [apply all_yields_lift | apply all_yields_ret].
      * intros D1. apply all_yields_bind.
        -- destruct (0 <? i); [apply all_yields_lift | apply all_yields_ret].
        -- intros D2. destruct (m <? D2); constructor.
  - apply all_yields_run, all_yields_for_in. intros i u _.
    unfold rtl_snarl_step. apply all_yields_bind; [apply all_yields_lift|].
    intros chain. apply all_yields_for_gen. intros [seed d] u' Hin.
    apply all_yields_bind; [apply all_yields_lift|]. intros d'.
    apply all_yields_yield_within_seed.
    specialize (IH chain). rewrite Forall_forall in IH.
    apply (IH _ Hin).
Qed.

Lemma ltr_extend_seeds (P : pyval -> Prop) container i nested :
  Forall (fun sp : pyval * list pyval => P sp.1) (yields nested) ->
  all_yields (fun sp : pyval * list pyval => P sp.1)
    (ltr_extend container i nested).
Proof.
  intros H. unfold ltr_extend. apply all_yields_for_gen.
  intros [seed p] u Hin. repeat constructor.
  rewrite Forall_forall in H. apply (H _ Hin).
Qed.

Lemma ltr_seeds n element :
  Forall (fun sp => is_seed sp.1 = true) (yields (ltr n element)).
Proof.
  revert element. induction n as [|n IH]; intros element; [constructor|].
  destruct element as [z|s|items|items]; cbn [ltr];
    [repeat constructor | repeat constructor | |].
  - apply all_yields_run, all_yields_for_in. intros i u _.
    unfold ltr_chain_step. apply all_yields_bind; [apply all_yields_lift|].
    intros nested. apply (ltr_extend_seeds (fun s => is_seed s = true)).
    apply IH.
  - apply all_yields_run, all_yields_for_in. intros i u _.
    unfold ltr_snarl_step. apply all_yields_bind; [apply all_yields_lift|].
    intros chain. apply (ltr_extend_seeds (fun s => is_seed s = true)).
    apply IH.
Qed.

Lemma reach_seeds path m :
  Forall (fun sd => is_seed sd.1 = true)
    (yields (zip_reachable_iterator path m)).
Proof.
  pose proof (fun e => proj1 (Forall_forall _ _)
                (rtl_seeds (S (height e)) e m)) as Hrtl.
  apply all_yields_run, all_yields_for_in. intros i D _.
  unfold reach_step. apply all_yields_bind; [apply all_yields_lift|].
  intros element. apply all_yields_bind; [apply all_yields_lift|].
  intros j. unfold reach_level. destruct (is_tuple element).
  - apply all_yields_bind; [apply all_yields_lift|]. intros jz.
    apply all_yields_bind.
    + apply all_yields_for_in. intros k u _. unfold reach_snarl_step.
      apply all_yields_bind; [apply all_yields_lift|]. intros chain.
      apply all_yields_for_gen. intros [seed d] u' Hin.
      apply all_yields_bind; [apply all_yields_lift|]. intros d'.
      apply all_yields_yield_within_seed. apply (Hrtl chain _ Hin).
    + intros _. apply all_yields_bind; [apply all_yields_lift|].
      intros D'. destruct (m <? D'); constructor.
  - apply all_yields_bind.
    { destruct (is_list element); constructor. }
    intros _. apply all_yields_bind; [apply all_yields_lift|]. intros jz.
    apply all_yields_for_in. intros k D0 _. unfold reach_chain_step.
    apply all_yields_bind; [apply all_yields_lift|]. intros D1.
    apply all_yields_bind; [destruct (m <? D1); constructor|]. intros _.
    apply all_yields_bind; [apply all_yields_lift|]. intros nested.
    apply all_yields_bind.
    + apply all_yields_for_gen. intros [seed d] u' Hin.
      apply all_yields_yield_within_seed. apply (Hrtl nested _ Hin).
    + intros _. apply all_yields_bind.
      * destruct (is_tuple nested);
          [apply all_yields_lift | apply all_yields_ret].
      * intros D2. destruct (m <? D2); constructor.
Qed.

(** X9 (only seeds come out): whatever Python value the walkers are given,
    well-formed or not, every seed they yield is a value that is neither a
    list nor a tuple; this holds for the right-to-left walker, the
    left-to-right enumerator, the outward walker on any path, and both seeds
    of every triple of the all-pairs enumerator, also for what is yielded
    before an exception. *)
Theorem only_seeds_are_yielded (element : pyval) (path : list pyval)
  (max_distance : Z) :
  Forall (fun sd => is_seed sd.1 = true)
    (yields (zip_element_right_to_left_iterator element max_distance)) /\
  Forall (fun sp => is_seed sp.1 = true)
    (yields (zip_element_left_to_right_iterator element)) /\
  Forall (fun sd => is_seed sd.1 = true)
    (yields (zip_reachable_iterator path max_distance)) /\
  Forall (fun x : pyval * pyval * Z =>
            is_seed x.1.1 = true /\ is_seed x.1.2 = true)
    (yields (zip_element_pairs_iterator element max_distance)).
Proof.
  split; [apply rtl_seeds|]. split; [apply ltr_seeds|].
  split; [apply reach_seeds|].
  apply all_yields_run, all_yields_for_gen. intros [seed p] u Hin.
  apply all_yields_for_gen. intros [seed2 d] u' Hin2.
  repeat constructor; cbn [fst snd].
  - pose proof (ltr_seeds (S (height element)) element) as H.
    rewrite Forall_forall in H. apply (H _ Hin).
  - pose proof (reach_seeds p max_distance) as H.
    rewrite Forall_forall in H. apply (H _ Hin2).
Qed.

Lemma well_paired_snoc path container i :
  well_paired path = true -> is_seed container = false ->
  well_paired (path ++ [container; PInt i]) = true.
Proof.
  intros Hp Hc.
  assert (H : forall n p, (length p <= n)%nat -> well_paired p = true ->
                well_paired (p ++ [container; PInt i]) = true).
  { induction n as [|n IH]; intros p Hlen Hwp.
    - destruct p; [|simpl in Hlen; lia]. simpl. rewrite Hc. reflexivity.
    - destruct p as [|c [|j p]]; [simpl; rewrite Hc; reflexivity
                                  | discriminate Hwp |].
      destruct j; try discriminate Hwp.
      cbn [well_paired app] in *. apply andb_prop in Hwp as [H1 H2].
      rewrite H1. simpl. apply IH; [simpl in Hlen; lia | exact H2]. }
  apply (H (length path)); [lia | exact Hp].
Qed.

Lemma ltr_extend_paired container i nested :
  is_seed container = false ->
  Forall (fun sp : pyval * list pyval => well_paired sp.2 = true)
    (yields nested) ->
  all_yields (fun sp : pyval * list pyval => well_paired sp.2 = true)
    (ltr_extend container i nested).
Proof.
  intros Hc H. unfold ltr_extend. apply all_yields_for_gen.
  intros [seed p] u Hin. repeat constructor. cbn [snd].
  rewrite Forall_forall in H.
  apply well_paired_snoc; [apply (H _ Hin) | exact Hc].
Qed.

Lemma ltr_paired n element :
  Forall (fun sp => well_paired sp.2 = true) (yields (ltr n element)).
Proof.
  revert element. induction n as [|n IH]; intros element; [constructor|].
  destruct element as [z|s|items|items]; cbn [ltr];
    [repeat constructor | repeat constructor | |].
  - apply all_yields_run, all_yields_for_in. intros i u _.
    unfold ltr_chain_step. apply all_yields_bind; [apply all_yields_lift|].
    intros nested. apply ltr_extend_paired; [reflexivity | apply IH].
  - apply all_yields_run, all_yields_for_in. intros i u _.
    unfold ltr_snarl_step. apply all_yields_bind; [apply all_yields_lift|].
    intros chain. apply ltr_extend_paired; [reflexivity | apply IH].
Qed.

(** X10 (paths are made of pairs): whatever Python value the left-to-right
    enumerator is given, every containment path it yields is a flat list that
    holds, in turn, a container (a list or a tuple) and an integer index; in
    particular its length is even. *)
Theorem paths_are_made_of_pairs (element : pyval) :
  Forall (fun sp => well_paired sp.2 = true /\
                    exists k, length sp.2 = (2 * k)%nat)
    (yields (zip_element_left_to_right_iterator element)).
Proof.
  pose proof (ltr_paired (S (height element)) element) as H.
  eapply Forall_impl; [exact H|]. intros [seed p] Hp. cbn [snd] in *.
  split; [exact Hp|]. clear -Hp.
  assert (Hn : forall n q, (length q <= n)%nat -> well_paired q = true ->
                 exists k, length q = (2 * k)%nat).
  { induction n as [|n IH]; intros q Hlen Hq.
    - destruct q; [exists O; reflexivity | simpl in Hlen; lia].
    - destruct q as [|c [|j q]]; [exists O; reflexivity | discriminate Hq|].
      destruct j; try discriminate Hq.
      cbn [well_paired] in Hq. apply andb_prop in Hq as [_ Hq].
      destruct (IH q ltac:(simpl in Hlen; lia) Hq) as [k Hk].
      exists (S k). simpl. rewrite Hk. lia. }
  apply (Hn (length p)); [lia | exact Hp].
Qed.

(** ** The enumerator does not read distances *)

Lemma seeded_chain first rest :
  seeded (Chain first rest) = true ->
  seeded first = true /\ Forall (fun gc => seeded gc.2 = true) rest.
Proof.
  cbn [seeded]. intros H. apply andb_prop in H as [Hf Hr].
  split; [exact Hf|]. rewrite forallb_forall in Hr.
  rewrite Forall_forall. intros gc Hin. apply Hr, list_elem_of_In, Hin.
Qed.

Lemma seeded_snarl entries boundary :
  seeded (Snarl entries boundary) = true ->
  Forall (fun e => seeded e.2 = true) entries.
Proof.
  cbn [seeded]. intros Hr. rewrite forallb_forall in Hr.
  rewrite Forall_forall. intros e Hin. apply Hr, list_elem_of_In, Hin.
Qed.

Lemma ltr_seeded t :
  seeded t = true ->
  forall n, (height (encode t) < n)%nat ->
  ltr n (encode t) = (enumerated t, Returned).
Proof.
  induction t as [seed|first rest IHfirst IHrest|entries boundary IH]
    using ztree_ind'; intros Hs n Hn.
  - destruct n as [|n]; [lia|]. simpl in Hs.
    destruct seed; try discriminate Hs; reflexivity.
  - destruct n as [|n]; [lia|].
    pose proof (seeded_chain _ _ Hs) as [Hsf Hsr].
    cbn [enumerated]. rewrite encode_chain. cbn [ltr].
    unfold len. rewrite chain_items_length, py_range_evens.
    rewrite <- (app_nil_r (chain_items first rest)) at 1.
    rewrite (ltr_chain_loop (ltr n) first rest).
    + rewrite app_nil_r. reflexivity.
    + apply IHfirst; [exact Hsf|].
      pose proof (height_chain_first first rest). lia.
    + pose proof (height_chain_rest first rest) as Hh.
      rewrite Forall_forall in *. intros gc Hin.
      apply IHrest; [exact Hin | apply Hsr; exact Hin|].
      specialize (Hh gc Hin). cbv beta in Hh. lia.
  - destruct n as [|n]; [lia|].
    pose proof (seeded_snarl _ _ Hs) as Hrec.
    cbn [enumerated]. rewrite encode_snarl. cbn [ltr].
    replace (len (map entry_item entries ++ [PTuple (map PInt boundary)]) - 1)
      with (Z.of_nat (length entries))
      by (unfold len; rewrite length_app, length_map; simpl; lia).
    rewrite py_range_count.
    rewrite (ltr_snarl_loop (ltr n) entries); [reflexivity|].
    pose proof (height_snarl_entries entries boundary) as Hh.
    rewrite Forall_forall in *. intros e Hin.
    apply IH; [exact Hin | apply Hrec; exact Hin|].
    specialize (Hh e Hin). cbv beta in Hh. lia.
Qed.

(** X11 (the enumerator does not read distances): on the value of any tree
    whose leaves are seeds, whatever its distances are (negative, too few or
    too many in a snarl entry or boundary) and however chains and snarls are
    nested, the left-to-right enumerator returns normally and yields one pair
    per seed, the seeds from left to right, each with its containment
    path. *)
Theorem enumeration_ignores_distances (t : ztree) :
  seeded t = true ->
  zip_element_left_to_right_iterator (encode t) = (enumerated t, Returned) /\
  map fst (yields (zip_element_left_to_right_iterator (encode t))) = leaves t.
Proof.
  intros Hs.
  assert (H : zip_element_left_to_right_iterator (encode t)
              = (enumerated t, Returned))
    by (apply ltr_seeded; [exact Hs | lia]).
  split; [exact H|]. rewrite H. apply enumerated_leaves.
Qed.

Lemma enumeration_ignores_distances_witness :
  let t := Chain (Leaf (PStr "a"))
             [(-3, Chain (Leaf (PStr "b")) []);
              (2, Snarl [([], Leaf (PInt 7))] [5; 5; 5])] in
  ok t = false /\
  zip_element_left_to_right_iterator (encode t) = (enumerated t, Returned) /\
  map fst (yields (zip_element_left_to_right_iterator (encode t))) = leaves t.
Proof.
  split; [reflexivity|].
  apply (enumeration_ignores_distances
           (Chain (Leaf (PStr "a"))
              [(-3, Chain (Leaf (PStr "b")) []);
               (2, Snarl [([], Leaf (PInt 7))] [5; 5; 5])])).
  reflexivity.
Defined.

(** ** Malformed input *)

Lemma py_range_up_split (start stop : Z) (k : nat) :
  start + 2 * Z.of_nat k < stop ->
  py_range start stop 2
  = py_range start (start + 2 * Z.of_nat k) 2
    ++ (start + 2 * Z.of_nat k)
       :: py_range (start + 2 * Z.of_nat k + 2) stop 2.
Proof.
  revert start. induction k as [|k IH]; intros start H.
  - replace (start + 2 * Z.of_nat 0) with start by lia.
    rewrite (py_range_up_nil start start) by lia.
    rewrite (py_range_up_cons start stop) by lia. reflexivity.
  - rewrite (py_range_up_cons start stop) by lia.
    rewrite (py_range_up_cons start (start + 2 * Z.of_nat (S k))) by lia.
    rewrite (IH (start + 2)) by lia.
    replace (start + 2 + 2 * Z.of_nat k) with (start + 2 * Z.of_nat (S k))
      by lia.
    reflexivity.
Qed.

(** The rounds on the first [2 * k] items of a path do not look further. *)
Lemma reach_from_prefix path rest m D (k : nat) :
  length path = (2 * k)%nat -> rest <> [] ->
  reach_from (path ++ rest) m D
  = bind (reach_from path m D)
      (fun D' =>
         bind (reach_step (path ++ rest) m (len path) D')
           (for_in (py_range (len path + 2) (len (path ++ rest)) 2)
              (reach_step (path ++ rest) m))).
Proof.
  intros Hk Hrest. unfold reach_from.
  assert (Hlen : len path = 0 + 2 * Z.of_nat k) by (unfold len; lia).
  assert (Hlt : 0 + 2 * Z.of_nat k < len (path ++ rest)).
  { unfold len. rewrite length_app. destruct rest; [congruence|].
    simpl. lia. }
  rewrite (py_range_up_split 0 (len (path ++ rest)) k Hlt), <- Hlen.
  rewrite for_in_app.
  rewrite (for_in_ext _ (reach_step (path ++ rest) m) (reach_step path m)).
  - reflexivity.
  - intros i D' Hi. rewrite Hlen in Hi.
    replace (0 + 2 * Z.of_nat k) with (Z.of_nat (2 * k)) in Hi by lia.
    rewrite py_range_pairs in Hi.
    apply list_elem_of_In, in_map_iff in Hi as (n & <- & Hn).
    apply in_seq in Hn. unfold reach_step.
    rewrite !(index_list_app_l path) by (unfold len; lia). reflexivity.
Qed.

(** X12 (a seed in the place of a container): when the item at an even
    position of the path is neither a tuple nor a list and an item follows
    it, the outward walker does the rounds before that position as on the
    path cut there and then, unless it has returned or failed before, fails
    the assertion of the chain case; called on a path that starts with such
    an item it yields nothing and raises [AssertionError]. *)
Theorem seed_in_path_fails_assertion (path rest : list pyval)
  (element j : pyval) (max_distance D : Z) :
  (exists k, length path = (2 * k)%nat) ->
  is_seed element = true ->
  reach_from (path ++ element :: j :: rest) max_distance D
  = bind (reach_from path max_distance D) (fun _ => raise AssertionError) /\
  zip_reachable_iterator (element :: j :: rest) max_distance
  = ([], Raised AssertionError).
Proof.
  intros [k Hk] Hseed.
  assert (Hlevel : forall D', reach_level max_distance element j D'
                              = raise AssertionError).
  { intros D'. unfold reach_level.
    destruct element; try discriminate Hseed; reflexivity. }
  assert (Hgen : forall p n D0, length p = (2 * n)%nat ->
            reach_from (p ++ element :: j :: rest) max_distance D0
            = bind (reach_from p max_distance D0)
                (fun _ => raise AssertionError)).
  { intros p n D0 Hn.
    rewrite (reach_from_prefix p (element :: j :: rest) max_distance D0 n Hn)
      by discriminate.
    apply bind_ext. intros D'. unfold reach_step at 1.
    rewrite (index_list_at p element (j :: rest)) by reflexivity.
    rewrite bind_lift_ok.
    replace (p ++ element :: j :: rest) with ((p ++ [element]) ++ j :: rest)
      by (rewrite <- app_assoc; reflexivity).
    rewrite (index_list_at (p ++ [element]) j rest)
      by (unfold len; rewrite length_app; simpl; lia).
    rewrite bind_lift_ok, Hlevel. reflexivity. }
  split; [apply (Hgen path k D Hk)|].
  unfold zip_reachable_iterator.
  change (element :: j :: rest) with ([] ++ element :: j :: rest).
  rewrite (Hgen [] O 0 eq_refl). reflexivity.
Qed.

Lemma seed_in_path_fails_assertion_witness :
  reach_from ([PList [PStr "a"; PInt 1; PStr "b"]; PInt 2]
              ++ PStr "b" :: PInt 0 :: []) 10 0
  = bind (reach_from [PList [PStr "a"; PInt 1; PStr "b"]; PInt 2] 10 0)
      (fun _ => raise AssertionError) /\
  zip_reachable_iterator (PStr "b" :: PInt 0 :: []) 10
  = ([], Raised AssertionError).
Proof.
  apply (seed_in_path_fails_assertion
           [PList [PStr "a"; PInt 1; PStr "b"]; PInt 2] []
           (PStr "b") (PInt 0) 10 0).
  - exists 1%nat. reflexivity.
  - reflexivity.
Defined.

(** X13 (a path of odd length): on a path with an odd number of items the
    outward walker does the rounds of the path without its last item and
    then, unless it has returned or failed before, raises [IndexError] when
    it reads the index that is missing; so it yields exactly what it yields
    on the shorter path. *)
Theorem odd_path_fails_index (path : list pyval) (element : pyval)
  (max_distance D : Z) :
  (exists k, length path = (2 * k)%nat) ->
  reach_from (path ++ [element]) max_distance D
  = bind (reach_from path max_distance D) (fun _ => raise IndexError) /\
  yields (zip_reachable_iterator (path ++ [element]) max_distance)
  = yields (zip_reachable_iterator path max_distance).
Proof.
  intros [k Hk].
  assert (Hgen : forall D0,
            reach_from (path ++ [element]) max_distance D0
            = bind (reach_from path max_distance D0)
                (fun _ => raise IndexError)).
  { intros D0.
    rewrite (reach_from_prefix path [element] max_distance D0 k Hk)
      by discriminate.
    apply bind_ext. intros D'. unfold reach_step at 1.
    rewrite (index_list_at path element []) by reflexivity.
    rewrite bind_lift_ok.
    replace (index_list (path ++ [element]) (len path + 1))
      with (Err (A := pyval) IndexError); [reflexivity|].
    unfold index_list, len.
    rewrite (proj2 (Z.ltb_ge (Z.of_nat (length path) + 1) 0)) by lia.
    rewrite (proj2 (Z.ltb_ge (Z.of_nat (length path) + 1) 0)) by lia.
    rewrite lookup_ge_None_2; [reflexivity|].
    rewrite length_app. simpl. lia. }
  split; [apply Hgen|].
  unfold zip_reachable_iterator. rewrite Hgen.
  destruct (reach_from path max_distance 0) as [ys [s|e]];
    [|reflexivity].
  rewrite bind_next. simpl. apply app_nil_r.
Qed.

Lemma odd_path_fails_index_witness :
  reach_from ([PList [PStr "a"; PInt 1; PStr "b"]; PInt 2]
              ++ [PList []]) 10 0
  = bind (reach_from [PList [PStr "a"; PInt 1; PStr "b"]; PInt 2] 10 0)
      (fun _ => raise IndexError) /\
  yields (zip_reachable_iterator
            ([PList [PStr "a"; PInt 1; PStr "b"]; PInt 2] ++ [PList []]) 10)
  = yields (zip_reachable_iterator
              [PList [PStr "a"; PInt 1; PStr "b"]; PInt 2] 10).
Proof.
  apply (odd_path_fails_index
           [PList [PStr "a"; PInt 1; PStr "b"]; PInt 2] (PList []) 10 0).
  exists 1%nat. reflexivity.
Defined.

(** X14 (a gap that is a string, a list or a tuple): on a list that ends
    with a seed preceded by a string, a list or a tuple where a distance
    should be, the right-to-left walker yields that last seed at distance 0
    (when the bound is not negative) and then raises [TypeError] when it adds
    the gap to the running distance; nothing to the left of the gap is
    visited. *)
Theorem gap_of_wrong_type_fails (pre : list pyval) (gap seed : pyval)
  (max_distance : Z) :
  is_seed seed = true ->
  (exists s, gap = PStr s) \/ is_list gap = true \/ is_tuple gap = true ->
  zip_element_right_to_left_iterator (PList (pre ++ [gap; seed])) max_distance
  = (if 0 <=? max_distance then [(seed, 0)] else [], Raised TypeError).
Proof.
  intros Hseed Hwrong.
  assert (Hgap : as_int gap = Err TypeError).
  { destruct Hwrong as [[s ->]|[H|H]]; [reflexivity| |];
      destruct gap; try discriminate H; reflexivity. }
  unfold zip_element_right_to_left_iterator.
  assert (Hstep : forall walk,
            walk seed max_distance = ([(seed, 0)], Returned) ->
            rtl_chain_step walk (PList (pre ++ [gap; seed])) max_distance
              (len pre + 1) 0
            = (if 0 <=? max_distance then [(seed, 0)] else [],
               Exit (Raised TypeError))).
  { intros walk Hwalk. unfold rtl_chain_step. cbn [getitem].
    replace (index_list (pre ++ [gap; seed]) (len pre + 1))
      with (Ok (A := pyval) seed).
    2:{ symmetry.
        replace (pre ++ [gap; seed]) with ((pre ++ [gap]) ++ [seed])
          by (rewrite <- app_assoc; reflexivity).
        apply index_list_at. unfold len. rewrite length_app. simpl. lia. }
    rewrite bind_lift_ok, Hwalk, for_gen_returned.
    replace (len pre + 1 - 1) with (len pre) by lia.
    rewrite (index_list_at pre gap [seed]) by reflexivity.
    cbn [res_bind]. rewrite Hgap.
    replace (0 <? len pre + 1) with true
      by (symmetry; apply Z.ltb_lt; unfold len; lia).
    replace (is_tuple seed) with false
      by (destruct seed; try discriminate Hseed; reflexivity).
    cbn [for_in]. unfold yield_within. change (0 + 0) with 0.
    destruct (0 <=? max_distance); reflexivity. }
  destruct (height (PList (pre ++ [gap; seed]))) as [|h] eqn:Hh;
    [discriminate Hh|].
  cbn [rtl].
  replace (len (pre ++ [gap; seed]) - 1) with (len pre + 1)
    by (unfold len; rewrite length_app; simpl; lia).
  rewrite py_range_down2_cons by (unfold len; lia).
  cbn [for_in]. rewrite Hstep.
  - destruct (0 <=? max_distance); reflexivity.
  - destruct seed; try discriminate Hseed; reflexivity.
Qed.

Lemma gap_of_wrong_type_fails_witness :
  zip_element_right_to_left_iterator
    (PList ([PStr "a"] ++ [PStr "x"; PStr "b"])) 10
  = (if 0 <=? 10 then [(PStr "b", 0)] else [], Raised TypeError).
Proof.
  apply (gap_of_wrong_type_fails [PStr "a"] (PStr "x") (PStr "b") 10);
    [reflexivity | left; exists "x"%string; reflexivity].
Defined.
